(** * Contact manager backend (backend/main.py): a shallow embedding

    The service keeps one table, [contacts], and exposes create / read /
    update / delete handlers; the email of a record is scored by the
    Hunter.io client [verify_email_hunter], which falls back to fixed scores.

    The embedding follows the source handler by handler.  Python values that
    the code leaves untyped ([Dict[str, Any]], the JSON body of the Hunter
    response) are values of [pyval]; exceptions are values of [exn] threaded
    through the monad [M]; the SQLAlchemy session is the field [session] of
    the [World], published by [commit] and dropped when [get_db] closes it.

    Requests are served one at a time.  The table behaves as the SQLite
    table that [Base.metadata.create_all] creates: an integer primary key
    assigned on insert, [nullable=False] and [unique=True] enforced when a
    row is written, LIMIT and OFFSET read as SQLite reads them.  A Python
    integer is unbounded; the driver binds it as a 64-bit parameter and raises
    when it does not fit.  A string is its UTF-8 bytes, so a [str] that has
    none (one holding an unpaired surrogate) is not among the values.  An
    exception is one that derives from [Exception].  What FastAPI does with
    the value a handler returned (checking it against [response_model]) comes
    after the handler and is not part of the embedding. *)

From Stdlib Require Import ZArith Lia.
From stdpp Require Import base option list strings sorting.

(** ** Python values *)

(** What [response.json()] can return, and what a cell typed [Any] can hold.
    Numbers with a fraction or an exponent keep their literal. *)
#[local] Unset Elimination Schemes.
Inductive pyval :=
| PNone
| PBool (b : bool)
| PInt (n : Z)
| PFloat (literal : string)
| PStr (s : string)
| PList (items : list pyval)
| PDict (items : list (string * pyval)).
#[local] Set Elimination Schemes.

(** Structural equality of two values, decided. *)
Fixpoint pyval_eq_dec (x y : pyval) {struct x} : {x = y} + {x <> y}.
Proof.
  destruct x as [| b | n | literal | s | items | items],
           y as [| b' | n' | literal' | s' | items' | items'];
    try (right; discriminate).
  - left; reflexivity.
  - destruct (bool_dec b b') as [-> | Hne]; [left; reflexivity | right; congruence].
  - destruct (Z.eq_dec n n') as [-> | Hne]; [left; reflexivity | right; congruence].
  - destruct (String.string_dec literal literal') as [-> | Hne];
      [left; reflexivity | right; congruence].
  - destruct (String.string_dec s s') as [-> | Hne]; [left; reflexivity | right; congruence].
  - assert (Hitems : {items = items'} + {items <> items'}).
    { revert items'. induction items as [| v rest IH]; intros [| v' rest'];
        try (right; discriminate); [left; reflexivity |].
      destruct (pyval_eq_dec v v') as [-> | Hne]; [ | right; congruence ].
      destruct (IH rest') as [-> | Hne]; [left; reflexivity | right; congruence]. }
    destruct Hitems as [-> | Hne]; [left; reflexivity | right; congruence].
  - assert (Hitems : {items = items'} + {items <> items'}).
    { revert items'. induction items as [| [k v] rest IH]; intros [| [k' v'] rest'];
        try (right; discriminate); [left; reflexivity |].
      destruct (String.string_dec k k') as [-> | Hne]; [ | right; congruence ].
      destruct (pyval_eq_dec v v') as [-> | Hne]; [ | right; congruence ].
      destruct (IH rest') as [-> | Hne]; [left; reflexivity | right; congruence]. }
    destruct Hitems as [-> | Hne]; [left; reflexivity | right; congruence].
Defined.

#[global] Instance pyval_eq_decision : EqDecision pyval := pyval_eq_dec.

(** A dict as the list of its items; a key occurs once and is looked up from
    the front. *)
Fixpoint dict_lookup {V : Type} (key : string) (items : list (string * V)) : option V :=
  match items with
  | [] => None
  | (k, v) :: rest => if decide (k = key) then Some v else dict_lookup key rest
  end.

(** [str(x)] inside an f-string, for a value that is a [str] or [None]. *)
Definition str (x : option string) : string := default "None" x.

(** ** Exceptions *)

Inductive exn :=
| HTTPStatusError                                  (* httpx.HTTPStatusError *)
| RequestError (kind : string)                     (* httpx.RequestError and subclasses *)
| PyError (name : string)                          (* any other subclass of Exception *)
| HTTPException (status_code : Z) (detail : string) (* fastapi.HTTPException *)
| IntegrityError (constraint : string).            (* sqlalchemy.exc.IntegrityError *)

Inductive Exc (A : Type) :=
| Return (a : A)
| Raise (e : exn).
Arguments Return {A} a.
Arguments Raise {A} e.

Definition Exc_bind {A B} (r : Exc A) (k : A -> Exc B) : Exc B :=
  match r with
  | Return a => k a
  | Raise e => Raise e
  end.

Definition HTTP_404_NOT_FOUND : Z := 404.
Definition HTTP_409_CONFLICT : Z := 409.

(** [obj[key]]: only a dict can be indexed by a string. *)
Definition getitem (obj : pyval) (key : string) : Exc pyval :=
  match obj with
  | PDict items =>
      match dict_lookup key items with
      | Some v => Return v
      | None => Raise (PyError "KeyError")
      end
  | _ => Raise (PyError "TypeError")
  end.

(** [obj.get(key, dflt)]: only a dict has the method. *)
Definition get (obj : pyval) (key : string) (dflt : pyval) : Exc pyval :=
  match obj with
  | PDict items => Return (default dflt (dict_lookup key items))
  | _ => Raise (PyError "AttributeError")
  end.

(** ** What the SQLite driver binds and the integer column keeps *)

(** A signed 64-bit integer, the only kind SQLite holds. *)
Definition is_int64 (n : Z) : Prop := (- 2 ^ 63 <= n <= 2 ^ 63 - 1)%Z.

#[global] Instance is_int64_dec n : Decision (is_int64 n).
Proof. unfold is_int64. apply _. Defined.

(** One Python value bound as a statement parameter: the sqlite3 driver
    takes [None], [int] (and [bool], an [int]), [float] and [str]; an [int]
    that does not fit 64 bits raises [OverflowError], a list or a dict
    raises [ProgrammingError]. *)
Definition bind_parameter (v : pyval) : Exc unit :=
  match v with
  | PNone | PBool _ | PFloat _ | PStr _ => Return tt
  | PInt n => if decide (is_int64 n) then Return tt else Raise (PyError "OverflowError")
  | PList _ | PDict _ => Raise (PyError "ProgrammingError")
  end.

Fixpoint bind_parameters (parameters : list pyval) : Exc unit :=
  match parameters with
  | [] => Return tt
  | v :: rest => Exc_bind (bind_parameter v) (fun _ => bind_parameters rest)
  end.

(** What a column declared INTEGER holds, and hands back when read, once
    [v] was bound to it: null and an integer stay, a boolean is its integer.
    A text or a real goes through SQLite's numeric affinity ('95' and 90.0
    come back as 95 and 90, a text that is no number stays a text), which is
    left to [text_or_real]. *)
Definition integer_column (text_or_real : pyval -> pyval) (v : pyval) : pyval :=
  match v with
  | PNone => PNone
  | PBool b => PInt (if b then 1 else 0)
  | PInt n => PInt n
  | PFloat _ | PStr _ => text_or_real v
  | PList _ | PDict _ => v
  end.

(** [v] written to the INTEGER column: bound, then kept as the column keeps
    it. *)
Definition bind_integer (text_or_real : pyval -> pyval) (v : pyval) : Exc pyval :=
  Exc_bind (bind_parameter v) (fun _ => Return (integer_column text_or_real v)).

(** The score of a changed object at flush: SQLAlchemy puts an attribute
    into the UPDATE only when its value differs from the one loaded. *)
Definition write_score (text_or_real : pyval -> pyval) (loaded : option pyval)
    (v : pyval) : Exc pyval :=
  if decide (loaded = Some v) then Return v else bind_integer text_or_real v.

(** ** The model and the schemas *)

(** [class Contact(Base)].  An attribute holds what Python put there: [id] is
    [None] until the row is flushed, and a text attribute can be set to
    [None]; the columns' constraints are checked when the row is flushed.
    [hunter_score] holds on an object what the handler assigned, in a row
    what the INTEGER column keeps of it. *)
Module Contact.
Record t := Contact {
  id : option Z;
  first_name : option string;
  last_name : option string;
  email : option string;
  phone : option string;
  hunter_score : pyval
}.
End Contact.

(** [class ContactCreate(BaseModel)], after validation. *)
Module ContactCreate.
Record t := ContactCreate {
  first_name : string;
  last_name : string;
  email : string;
  phone : option string
}.
End ContactCreate.

(** [class ContactUpdate(BaseModel)], after validation.  A field is unset
    ([None]), set to null ([Some None]) or set to a string. *)
Module ContactUpdate.
Record t := ContactUpdate {
  first_name : option (option string);
  last_name : option (option string);
  email : option (option string);
  phone : option (option string)
}.
End ContactUpdate.

(** One item of [update_data]: the key is the constructor, the value has the
    type the key's attribute holds. *)
Inductive item :=
| first_name_ (value : option string)
| last_name_ (value : option string)
| email_ (value : option string)
| phone_ (value : option string)
| hunter_score_ (value : pyval).

Definition key (it : item) : string :=
  match it with
  | first_name_ _ => "first_name"
  | last_name_ _ => "last_name"
  | email_ _ => "email"
  | phone_ _ => "phone"
  | hunter_score_ _ => "hunter_score"
  end.

(** [contact_in.model_dump(exclude_unset=True)]: the set fields, in the
    order the schema declares them. *)
Definition model_dump_exclude_unset (contact_in : ContactUpdate.t) : list item :=
  option_list (first_name_ <$> ContactUpdate.first_name contact_in) ++
  option_list (last_name_ <$> ContactUpdate.last_name contact_in) ++
  option_list (email_ <$> ContactUpdate.email contact_in) ++
  option_list (phone_ <$> ContactUpdate.phone contact_in).

(** ['email' in update_data] and [update_data['email']] in one lookup. *)
Fixpoint lookup_email (update_data : list item) : option (option string) :=
  match update_data with
  | [] => None
  | email_ v :: _ => Some v
  | _ :: rest => lookup_email rest
  end.

(** [update_data[key] = value]: the item replaces the one with its key, or
    is appended. *)
Fixpoint setitem (update_data : list item) (it : item) : list item :=
  match update_data with
  | [] => [it]
  | x :: rest => if decide (key x = key it) then it :: rest else x :: setitem rest it
  end.

(** [setattr(db_contact, key, value)]. *)
Definition setattr (c : Contact.t) (it : item) : Contact.t :=
  match it with
  | first_name_ v =>
      Contact.Contact (Contact.id c) v (Contact.last_name c) (Contact.email c)
        (Contact.phone c) (Contact.hunter_score c)
  | last_name_ v =>
      Contact.Contact (Contact.id c) (Contact.first_name c) v (Contact.email c)
        (Contact.phone c) (Contact.hunter_score c)
  | email_ v =>
      Contact.Contact (Contact.id c) (Contact.first_name c) (Contact.last_name c) v
        (Contact.phone c) (Contact.hunter_score c)
  | phone_ v =>
      Contact.Contact (Contact.id c) (Contact.first_name c) (Contact.last_name c)
        (Contact.email c) v (Contact.hunter_score c)
  | hunter_score_ v =>
      Contact.Contact (Contact.id c) (Contact.first_name c) (Contact.last_name c)
        (Contact.email c) (Contact.phone c) v
  end.

(** ** The world: the table, the open session, the calls made *)

Inductive event :=
| CallVerify (email : option string)   (* verify_email_hunter was entered *)
| HttpGet (url : string)               (* client.get(url) was sent *)
| CheckEmail (email : option string).  (* the table was asked who holds email *)

Abbreviation Store := (list Contact.t).

Record World := mkWorld {
  committed : Store;      (* the rows of table contacts *)
  session : Store;        (* the rows as the open transaction sees them *)
  trace : list event      (* calls made so far, oldest first *)
}.

Definition M (A : Type) : Type := World -> Exc A * World.

Definition ret {A} (a : A) : M A := fun w => (Return a, w).
Definition raise {A} (e : exn) : M A := fun w => (Raise e, w).
Definition bind {A B} (m : M A) (k : A -> M B) : M B :=
  fun w => match m w with
           | (Return a, w') => k a w'
           | (Raise e, w') => (Raise e, w')
           end.
Definition lift {A} (r : Exc A) : M A := fun w => (r, w).

(** [try: body except ...: handler]. *)
Definition try_except {A} (body : M A) (handler : exn -> M A) : M A :=
  fun w => match body w with
           | (Return a, w') => (Return a, w')
           | (Raise e, w') => handler e w'
           end.

Notation "'do' x <- m ; k" := (bind m (fun x => k))
  (at level 10, x name, m at level 100, k at level 200).
Notation "'do_' m ; k" := (bind m (fun _ => k))
  (at level 10, m at level 100, k at level 200).

Definition log (ev : event) : M unit :=
  fun w => (Return tt, mkWorld (committed w) (session w) (trace w ++ [ev])).

(** ** The table *)

(** The columns' constraints: [nullable=False] on the two names and the
    email, [unique=True] on the email. *)
Definition not_null_ok (c : Contact.t) : bool :=
  bool_decide (Contact.first_name c <> None) &&
  bool_decide (Contact.last_name c <> None) &&
  bool_decide (Contact.email c <> None).

Definition email_taken_by_other (rows : Store) (c : Contact.t) : bool :=
  bool_decide (Exists (fun r => Contact.id r <> Contact.id c /\
                                Contact.email r = Contact.email c) rows).

(** The integer primary key of a new row: one more than the largest in use,
    1 in an empty table. *)
Definition next_id (rows : Store) : Z :=
  (1 + foldr (fun r m => Z.max (default 0 (Contact.id r)) m) 0 rows)%Z.

Definition set_session (rows : Store) : M unit :=
  fun w => (Return tt, mkWorld (committed w) rows (trace w)).

Definition get_session : M Store := fun w => (Return (session w), w).

(** A failed statement rolls the transaction back. *)
Definition rollback : M unit :=
  fun w => (Return tt, mkWorld (committed w) (committed w) (trace w)).

Definition integrity_error {A} (constraint : string) : M A :=
  do_ rollback; raise (IntegrityError constraint).

(** A statement the driver or the store refuses. *)
Definition statement_error {A} (e : exn) : M A :=
  do_ rollback; raise e.

(** [select(Contact).where(p)] executed with its [parameters] bound,
    [.scalars()] taken. *)
Definition execute_select (parameters : list pyval) (P : Contact.t -> Prop)
    `{forall r, Decision (P r)} : M (list Contact.t) :=
  do_ lift (bind_parameters parameters);
  do rows <- get_session; ret (filter P rows).

(** [.first()]. *)
Definition first {A} (rows : list A) : option A := head rows.

Definition where_id (contact_id : Z) (r : Contact.t) : Prop :=
  Contact.id r = Some contact_id.

(** [Contact.email == x]; for [None] SQLAlchemy emits [IS NULL]. *)
Definition where_email (x : option string) (r : Contact.t) : Prop :=
  Contact.email r = x.

#[global] Instance where_id_dec contact_id r : Decision (where_id contact_id r).
Proof. unfold where_id. apply _. Defined.
#[global] Instance where_email_dec x r : Decision (where_email x r).
Proof. unfold where_email. apply _. Defined.

(** [stmt_check = select(Contact).where(Contact.email == x)] executed. *)
Definition execute_check (x : option string) : M (list Contact.t) :=
  do_ log (CheckEmail x); execute_select (option_list (PStr <$> x)) (where_email x).

(** The INSERT that flushes a new object: the values are bound, the key is
    assigned, the constraints are checked, the row is kept as the columns
    keep it.  The key is one more than the largest in use.  Once the largest
    64-bit key is in use (not before 2^63 - 1 inserts) there is no next key:
    SQLite then searches for a free key at random and gives up with
    SQLITE_FULL; of the two outcomes this keeps the refusal. *)
Definition flush_insert (text_or_real : pyval -> pyval) (c : Contact.t) : M Contact.t :=
  do rows <- get_session;
  match bind_integer text_or_real (Contact.hunter_score c) with
  | Raise e => statement_error e
  | Return stored_score =>
      if decide (is_int64 (next_id rows)) then
        let row := Contact.Contact (Some (next_id rows)) (Contact.first_name c)
                     (Contact.last_name c) (Contact.email c) (Contact.phone c)
                     stored_score in
        if negb (not_null_ok row) then integrity_error "NOT NULL constraint failed"
        else if email_taken_by_other rows row
        then integrity_error "UNIQUE constraint failed: contacts.email"
        else do_ set_session (rows ++ [row]); ret row
      else statement_error (PyError "OperationalError")
  end.

(** [c] with its score as the column keeps it. *)
Definition with_score (c : Contact.t) (stored_score : pyval) : Contact.t :=
  Contact.Contact (Contact.id c) (Contact.first_name c) (Contact.last_name c)
    (Contact.email c) (Contact.phone c) stored_score.

(** The table after the row keyed like [c] is replaced by [c]. *)
Definition replaced (c : Contact.t) (st : Store) : Store :=
  map (fun r => if decide (Contact.id r = Contact.id c) then c else r) st.

(** The UPDATE that flushes a changed object: the changed values are bound,
    the constraints are checked, the row with its key is replaced.  Of the
    values a handler assigns only the score can fail to bind or be kept in
    another form. *)
Definition flush_update (text_or_real : pyval -> pyval) (c : Contact.t) : M unit :=
  do rows <- get_session;
  let loaded := first (filter (fun r => Contact.id r = Contact.id c) rows) in
  match write_score text_or_real (Contact.hunter_score <$> loaded)
          (Contact.hunter_score c) with
  | Raise e => statement_error e
  | Return stored_score =>
      let row := with_score c stored_score in
      if negb (not_null_ok row) then integrity_error "NOT NULL constraint failed"
      else if email_taken_by_other rows row
      then integrity_error "UNIQUE constraint failed: contacts.email"
      else set_session (replaced row rows)
  end.

(** [delete(Contact).where(p)] executed with its [parameters] bound; the
    result is [rowcount]. *)
Definition execute_delete (parameters : list pyval) (P : Contact.t -> Prop)
    `{forall r, Decision (P r)} : M Z :=
  do_ lift (bind_parameters parameters);
  do rows <- get_session;
  do_ set_session (filter (fun r => ~ P r) rows);
  ret (Z.of_nat (length (filter P rows))).

(** [db.commit()] once the pending statements are flushed. *)
Definition commit : M unit :=
  fun w => (Return tt, mkWorld (session w) (session w) (trace w)).

(** [db.add(obj); await db.commit()]. *)
Definition add_commit (text_or_real : pyval -> pyval) (obj : Contact.t) : M Contact.t :=
  do row <- flush_insert text_or_real obj; do_ commit; ret row.

(** [await db.commit()] with [obj] changed since it was loaded. *)
Definition commit_changed (text_or_real : pyval -> pyval) (obj : Contact.t) : M unit :=
  do_ flush_update text_or_real obj; commit.

(** [await db.refresh(obj)]: the row is read back by its key. *)
Definition refresh (obj : Contact.t) : M Contact.t :=
  do rows <- get_session;
  match first (filter (fun r => Contact.id r = Contact.id obj) rows) with
  | Some row => ret row
  | None => raise (PyError "InvalidRequestError")
  end.

(** [get_db]: the session opens on the committed rows and is closed when the
    handler is left, by return or by exception; what was not committed is
    dropped. *)
Definition get_db {A} (handler : M A) : M A :=
  fun w =>
    match handler (mkWorld (committed w) (committed w) (trace w)) with
    | (r, w') => (r, mkWorld (committed w') (committed w') (trace w'))
    end.

(** ** The Hunter.io client *)

(** What [client.get] hands back: the status line and, when the body is
    JSON, its value. *)
Record Response := mkResponse {
  status_code : Z;
  content : option pyval
}.

(** What a request cannot see in its arguments: the process environment,
    the remote service, the email-validator behind [EmailStr] (the
    normalised address of a well-formed one), and what SQLite's numeric
    affinity makes of a text or a real written to an INTEGER column. *)
Record Env := mkEnv {
  HUNTER_IO_API_KEY : option string;
  client_get : string -> Exc Response;
  validate_email : string -> option string;
  numeric_affinity : pyval -> pyval
}.

(** [response.raise_for_status()]: httpx raises for any status outside
    2xx. *)
Definition raise_for_status (response : Response) : Exc unit :=
  if decide (200 <= status_code response /\ status_code response <= 299)%Z
  then Return tt else Raise HTTPStatusError.

(** [response.json()]. *)
Definition json (response : Response) : Exc pyval :=
  match content response with
  | Some data => Return data
  | None => Raise (PyError "JSONDecodeError")
  end.

(** The dict [{"score": ..., "status": ...}]. *)
Record Verification := mkVerification {
  score : pyval;
  status : string
}.

(** [os.environ.get("HUNTER_IO_API_KEY", "MOCK_KEY_IF_NOT_SET")]. *)
Definition HUNTER_API_KEY (env : Env) : string :=
  default "MOCK_KEY_IF_NOT_SET" (HUNTER_IO_API_KEY env).

Definition get_url (env : Env) (url : string) : M Response :=
  do_ log (HttpGet url); lift (client_get env url).

Definition hunter_url (env : Env) (email : option string) : string :=
  "https://api.hunter.io/v2/email-verifier?email=" +:+ str email +:+
  "&api_key=" +:+ HUNTER_API_KEY env.

Definition verify_email_hunter (env : Env) (email : option string) : M Verification :=
  do_ log (CallVerify email);
  if decide (HUNTER_API_KEY env = "" \/ HUNTER_API_KEY env = "MOCK_KEY_IF_NOT_SET")
  then ret (mkVerification (PInt 50) "mocked_key")
  else
    try_except
      (do response <- get_url env (hunter_url env email);
       do_ lift (raise_for_status response);
       do data <- lift (json response);
       do inner <- lift (getitem data "data");
       do score <- lift (get inner "score" (PInt 50));
       ret (mkVerification score "verified"))
      (fun e =>
         match e with
         | HTTPStatusError => ret (mkVerification (PInt 40) "api_error")
         | RequestError _ => ret (mkVerification (PInt 45) "network_error")
         | _ => ret (mkVerification (PInt 48) "unexpected_error")
         end).

(** ** The handlers *)

(** [GET /contacts/verify-email/{email}]: the dict returned, as a triple. *)
Definition verify_email_endpoint (env : Env) (email : string)
    : M (string * pyval * string) :=
  do result <- verify_email_hunter env (Some email);
  ret (email, score result, status result).

Definition create_contact (env : Env) (contact_in : ContactCreate.t) : M Contact.t :=
  get_db (
    do verification_result <- verify_email_hunter env (Some (ContactCreate.email contact_in));
    let hunter_score := score verification_result in
    do result_check <- execute_check (Some (ContactCreate.email contact_in));
    if first result_check is Some _ then
      raise (HTTPException HTTP_409_CONFLICT
               ("Contact with email " +:+ ContactCreate.email contact_in +:+
                " already exists."))
    else
      let db_contact :=
        Contact.Contact None
          (Some (ContactCreate.first_name contact_in))
          (Some (ContactCreate.last_name contact_in))
          (Some (ContactCreate.email contact_in))
          (ContactCreate.phone contact_in)
          hunter_score in
      do db_contact <- add_commit (numeric_affinity env) db_contact;
      do db_contact <- refresh db_contact;
      ret db_contact).

(** The rows in ascending [id]; a null key sorts first. *)
Definition id_le (a b : Contact.t) : Prop :=
  match Contact.id a, Contact.id b with
  | None, _ => True
  | Some _, None => False
  | Some x, Some y => (x <= y)%Z
  end.

#[global] Instance id_le_dec : RelDecision id_le.
Proof.
  intros a b. unfold id_le.
  destruct (Contact.id a), (Contact.id b); apply _.
Defined.

Definition order_by_id (rows : list Contact.t) : list Contact.t :=
  merge_sort id_le rows.

(** [OFFSET n] as the SQLite store reads it: a negative offset counts as
    zero. *)
Definition sql_offset (n : Z) (rows : list Contact.t) : list Contact.t :=
  drop (Z.to_nat n) rows.

(** [LIMIT n] as the SQLite store reads it: a negative limit is no upper
    bound on the rows returned. *)
Definition sql_limit (n : Z) (rows : list Contact.t) : list Contact.t :=
  if decide (n < 0)%Z then rows else take (Z.to_nat n) rows.

(** [select(Contact).offset(skip).limit(limit).order_by(Contact.id)]:
    ORDER BY, then OFFSET, then LIMIT, in whatever order the clauses were
    chained.  [skip] and [limit] are plain [int] query parameters, bound as
    they come. *)
Definition read_contacts (skip limit : Z) : M (list Contact.t) :=
  get_db (
    do_ lift (bind_parameters [PInt limit; PInt skip]);
    do rows <- get_session;
    let contacts := sql_limit limit (sql_offset skip (order_by_id rows)) in
    ret contacts).

Definition read_contact (contact_id : Z) : M Contact.t :=
  get_db (
    do result <- execute_select [PInt contact_id] (where_id contact_id);
    match first result with
    | None => raise (HTTPException HTTP_404_NOT_FOUND "Contact not found")
    | Some contact => ret contact
    end).

Definition update_contact_put (env : Env) (contact_id : Z) (contact_in : ContactCreate.t)
    : M Contact.t :=
  get_db (
    do result_get <- execute_select [PInt contact_id] (where_id contact_id);
    match first result_get with
    | None => raise (HTTPException HTTP_404_NOT_FOUND "Contact not found")
    | Some db_contact =>
        do hunter_score <-
          (if decide (Contact.email db_contact <> Some (ContactCreate.email contact_in))
           then
             do result_check <- execute_check (Some (ContactCreate.email contact_in));
             if first result_check is Some _ then
               raise (HTTPException HTTP_409_CONFLICT
                        ("Email " +:+ ContactCreate.email contact_in +:+
                         " is already in use by another contact."))
             else
               do verification_result <-
                 verify_email_hunter env (Some (ContactCreate.email contact_in));
               ret (score verification_result)
           else ret (Contact.hunter_score db_contact));
        let db_contact :=
          Contact.Contact (Contact.id db_contact)
            (Some (ContactCreate.first_name contact_in))
            (Some (ContactCreate.last_name contact_in))
            (Some (ContactCreate.email contact_in))
            (ContactCreate.phone contact_in)
            hunter_score in
        do_ commit_changed (numeric_affinity env) db_contact;
        do db_contact <- refresh db_contact;
        ret db_contact
    end).

Definition update_contact_patch (env : Env) (contact_id : Z) (contact_in : ContactUpdate.t)
    : M Contact.t :=
  get_db (
    do result_get <- execute_select [PInt contact_id] (where_id contact_id);
    match first result_get with
    | None => raise (HTTPException HTTP_404_NOT_FOUND "Contact not found")
    | Some db_contact =>
        let update_data := model_dump_exclude_unset contact_in in
        do update_data <-
          (match lookup_email update_data with
           | Some new_email =>
               if decide (new_email <> Contact.email db_contact) then
                 do result_check <- execute_check new_email;
                 if first result_check is Some _ then
                   raise (HTTPException HTTP_409_CONFLICT
                            ("Email " +:+ str new_email +:+
                             " is already in use by another contact."))
                 else
                   do verification_result <- verify_email_hunter env new_email;
                   ret (setitem update_data (hunter_score_ (score verification_result)))
               else ret update_data
           | None => ret update_data
           end);
        let db_contact := foldl setattr db_contact update_data in
        do_ commit_changed (numeric_affinity env) db_contact;
        do db_contact <- refresh db_contact;
        ret db_contact
    end).

Definition delete_contact (contact_id : Z) : M string :=
  get_db (
    do rowcount <- execute_delete [PInt contact_id] (where_id contact_id);
    if decide (rowcount = 0%Z) then
      raise (HTTPException HTTP_404_NOT_FOUND "Contact not found")
    else
      do_ commit;
      ret "Contact deleted").

Definition seed_contacts : list Contact.t :=
  [ Contact.Contact None (Some "Alice") (Some "Smith") (Some "alice@example.com")
      (Some "555-1234") (PInt 85);
    Contact.Contact None (Some "Bob") (Some "Johnson") (Some "bob.j@test.org")
      None (PInt 45) ].

(** [session.add_all(objs); await session.commit()].  The scores of the
    seed rows are integers, which the column keeps as they are. *)
Fixpoint add_all (objs : list Contact.t) : M unit :=
  match objs with
  | [] => ret tt
  | obj :: rest => do_ flush_insert (fun v => v) obj; add_all rest
  end.

Definition on_startup : M unit :=
  get_db (
    do rows <- get_session;
    if first (take 1 rows) is Some _ then ret tt
    else do_ add_all seed_contacts; commit).

(** ** Request bodies *)

(** A body that pydantic refuses: FastAPI answers 422. *)
Definition RequestValidationError {A} : Exc A := Raise (PyError "RequestValidationError").

(** [len(s)]: the characters of [s], that is the bytes of its UTF-8 form
    that start one (all but those of the shape 10xxxxxx). *)
Definition starts_character (a : Ascii.ascii) : bool :=
  match a with
  | Ascii.Ascii _ _ _ _ _ _ b6 b7 => negb (b7 && negb b6)
  end.

Fixpoint len (s : string) : nat :=
  match s with
  | EmptyString => 0
  | String a rest => (if starts_character a then 1 else 0) + len rest
  end.

(** [str = Field(..., min_length=n)]. *)
Definition validate_str (min_length : nat) (v : pyval) : Exc string :=
  match v with
  | PStr s => if decide (min_length <= len s) then Return s
              else RequestValidationError
  | _ => RequestValidationError
  end.

(** [EmailStr]. *)
Definition validate_EmailStr (env : Env) (v : pyval) : Exc string :=
  match v with
  | PStr s => match validate_email env s with
              | Some normalized => Return normalized
              | None => RequestValidationError
              end
  | _ => RequestValidationError
  end.

(** [Optional[T] = None], with [T] validated by [validate]: a missing key
    and a null both give [None]. *)
Definition validate_optional {T} (validate : pyval -> Exc T) (v : option pyval)
    : Exc (option T) :=
  match v with
  | None | Some PNone => Return None
  | Some x => match validate x with
              | Return t => Return (Some t)
              | Raise e => Raise e
              end
  end.

(** A required field. *)
Definition validate_required {T} (validate : pyval -> Exc T) (v : option pyval) : Exc T :=
  match v with
  | None => RequestValidationError
  | Some x => validate x
  end.

(** An optional field that remembers whether it was set. *)
Definition validate_settable {T} (validate : pyval -> Exc T) (v : option pyval)
    : Exc (option (option T)) :=
  match v with
  | None => Return None
  | Some x => match validate_optional validate (Some x) with
              | Return t => Return (Some t)
              | Raise e => Raise e
              end
  end.

(** The body of a POST or PUT, a JSON object, read as [ContactCreate]: keys
    the schema does not declare are ignored. *)
Definition ContactCreate_validate (env : Env) (body : list (string * pyval))
    : Exc ContactCreate.t :=
  Exc_bind (validate_required (validate_str 2) (dict_lookup "first_name" body)) (fun first_name =>
  Exc_bind (validate_required (validate_str 2) (dict_lookup "last_name" body)) (fun last_name =>
  Exc_bind (validate_required (validate_EmailStr env) (dict_lookup "email" body)) (fun email =>
  Exc_bind (validate_optional (validate_str 0) (dict_lookup "phone" body)) (fun phone =>
  Return (ContactCreate.ContactCreate first_name last_name email phone))))).

(** The body of a PATCH read as [ContactUpdate]. *)
Definition ContactUpdate_validate (env : Env) (body : list (string * pyval))
    : Exc ContactUpdate.t :=
  Exc_bind (validate_settable (validate_str 2) (dict_lookup "first_name" body)) (fun first_name =>
  Exc_bind (validate_settable (validate_str 2) (dict_lookup "last_name" body)) (fun last_name =>
  Exc_bind (validate_settable (validate_EmailStr env) (dict_lookup "email" body)) (fun email =>
  Exc_bind (validate_settable (validate_str 0) (dict_lookup "phone" body)) (fun phone =>
  Return (ContactUpdate.ContactUpdate first_name last_name email phone))))).

(** The three writing routes as FastAPI serves them: body validated, then
    the handler. *)
Definition post_contacts (env : Env) (body : list (string * pyval)) : M Contact.t :=
  do contact_in <- lift (ContactCreate_validate env body);
  create_contact env contact_in.

Definition put_contact (env : Env) (contact_id : Z) (body : list (string * pyval))
    : M Contact.t :=
  do contact_in <- lift (ContactCreate_validate env body);
  update_contact_put env contact_id contact_in.

Definition patch_contact (env : Env) (contact_id : Z) (body : list (string * pyval))
    : M Contact.t :=
  do contact_in <- lift (ContactUpdate_validate env body);
  update_contact_patch env contact_id contact_in.

(** [GET /contacts/verify-email/{email}] as FastAPI serves it: the path
    segment is read as [EmailStr], then the handler. *)
Definition get_verify_email (env : Env) (email : string) : M (string * pyval * string) :=
  do email <- lift (validate_EmailStr env (PStr email));
  verify_email_endpoint env email.

(** ** Runs of the service *)

Inductive request :=
| Startup
| VerifyEmail (email : string)
| Create (contact_in : ContactCreate.t)
| ReadAll (skip limit : Z)
| Read (contact_id : Z)
| Put (contact_id : Z) (contact_in : ContactCreate.t)
| Patch (contact_id : Z) (contact_in : ContactUpdate.t)
| Delete (contact_id : Z).

Definition discard {A} (m : M A) : M unit := do_ m; ret tt.

Definition handle (env : Env) (req : request) : M unit :=
  match req with
  | Startup => on_startup
  | VerifyEmail email => discard (verify_email_endpoint env email)
  | Create contact_in => discard (create_contact env contact_in)
  | ReadAll skip limit => discard (read_contacts skip limit)
  | Read contact_id => discard (read_contact contact_id)
  | Put contact_id contact_in => discard (update_contact_put env contact_id contact_in)
  | Patch contact_id contact_in => discard (update_contact_patch env contact_id contact_in)
  | Delete contact_id => discard (delete_contact contact_id)
  end.

(** A request arrives with no session open and its own record of calls. *)
Definition at_rest (st : Store) : World := mkWorld st st [].

Definition run {A} (m : M A) (st : Store) : Exc A * World := m (at_rest st).

Definition step (env : Env) (req : request) (st : Store) : Store :=
  committed (snd (run (handle env req) st)).

(** The stores the service can be in: the empty table, and what any request
    under any environment leaves behind. *)
Inductive reachable : Store -> Prop :=
| reachable_empty : reachable []
| reachable_step env req st : reachable st -> reachable (step env req st).

(** ** What the theorems speak about *)

(** The rows holding email [e]. *)
Definition holders (e : string) (st : Store) : list Contact.t :=
  filter (where_email (Some e)) st.

Definition emails_unique (st : Store) : Prop :=
  forall e, length (holders e st) <= 1.

(** The table's own constraints: a key on every row, a 64-bit integer; no
    two rows with one key, no null name or email, no two rows with one
    email. *)
Definition store_ok (st : Store) : Prop :=
  Forall (fun r => is_Some (Contact.id r) /\ Is_true (not_null_ok r)) st /\
  NoDup (Contact.id <$> st) /\
  NoDup (Contact.email <$> st) /\
  Forall (fun r => forall i, Contact.id r = Some i -> is_int64 i) st.

(** [verify_email_hunter] was not entered. *)
Definition no_verification (tr : list event) : Prop :=
  forall email, CallVerify email ∉ tr.

(** The table was not asked who holds an email. *)
Definition no_conflict_check (tr : list event) : Prop :=
  forall email, CheckEmail email ∉ tr.

(** The remote service was not called. *)
Definition no_external_call (tr : list event) : Prop :=
  forall url, HttpGet url ∉ tr.

(** A credential is configured: the key is neither empty nor the stand-in. *)
Definition configured (env : Env) : Prop :=
  HUNTER_API_KEY env <> "" /\ HUNTER_API_KEY env <> "MOCK_KEY_IF_NOT_SET".

(** The row of [st] with key [i]. *)
Definition row (i : Z) (st : Store) : option Contact.t :=
  first (filter (where_id i) st).

(** What one verification of [email] yields under [env], and the calls it
    makes; neither depends on the table ([verify_email_hunter_run]). *)
Definition verification_of (env : Env) (email : option string) : Exc Verification :=
  fst (run (verify_email_hunter env email) []).

Definition verification_trace (env : Env) (email : option string) : list event :=
  trace (snd (run (verify_email_hunter env email) [])).

(** The three answers that stand for a verification that failed. *)
Definition fallback (v : Verification) : Prop :=
  v = mkVerification (PInt 40) "api_error" \/
  v = mkVerification (PInt 45) "network_error" \/
  v = mkVerification (PInt 48) "unexpected_error".

(** Both views of the table meet its constraints. *)
Definition world_ok (w : World) : Prop :=
  store_ok (committed w) /\ store_ok (session w).

(** A computation that leaves the constraints in force, however it ends. *)
Definition keeps_ok {A} (m : M A) : Prop :=
  forall w, world_ok w -> world_ok (snd (m w)).

(** The row a write leaves: [old] with every set field of [contact_in]
    put over it and [hunter_score] as given. *)
Definition overwritten (old : Contact.t) (contact_in : ContactUpdate.t) (hunter_score : pyval)
    : Contact.t :=
  Contact.Contact (Contact.id old)
    (default (Contact.first_name old) (ContactUpdate.first_name contact_in))
    (default (Contact.last_name old) (ContactUpdate.last_name contact_in))
    (default (Contact.email old) (ContactUpdate.email contact_in))
    (default (Contact.phone old) (ContactUpdate.phone contact_in))
    hunter_score.

(** [ContactCreate] seen as an update that sets every field. *)
Definition all_fields (contact_in : ContactCreate.t) : ContactUpdate.t :=
  ContactUpdate.ContactUpdate
    (Some (Some (ContactCreate.first_name contact_in)))
    (Some (Some (ContactCreate.last_name contact_in)))
    (Some (Some (ContactCreate.email contact_in)))
    (Some (ContactCreate.phone contact_in)).

(** Position [p] of a list, counted from 0; there is none below 0. *)
Definition at_position (l : list Contact.t) (p : Z) : option Contact.t :=
  if decide (0 <= p)%Z then l !! Z.to_nat p else None.

(** [result] is the contiguous slice of [sorted] made of the positions
    [skip] through [skip + limit - 1]: its [k]-th entry is position
    [skip + k] as long as [k < limit], and it ends there. *)
Definition is_slice (sorted : list Contact.t) (skip limit : Z) (result : list Contact.t)
    : Prop :=
  forall k : nat,
    result !! k =
      if decide (Z.of_nat k < limit)%Z then at_position sorted (skip + Z.of_nat k)
      else None.

(** In ascending [id]. *)
Definition ascending (l : list Contact.t) : Prop := StronglySorted id_le l.

(** The table the first start-up leaves: the two seed rows. *)
Definition seeded : Store :=
  step (mkEnv None (fun _ => Raise (RequestError "ConnectError")) (fun _ => None) (fun v => v))
       Startup [].

(** Two request bodies that agree on the four fields the schemas declare. *)
Definition same_declared_fields (body1 body2 : list (string * pyval)) : Prop :=
  forall name, name ∈ ["first_name"; "last_name"; "email"; "phone"] ->
    dict_lookup name body1 = dict_lookup name body2.

(** * Proofs *)

(** ** The verification client *)

Ltac unfold_monad :=
  unfold run, at_rest, get_db, bind, ret, raise, lift, try_except, log,
    get_session, set_session, rollback, integrity_error, statement_error, commit in *.

Ltac verify_done :=
  simpl; rewrite <- ?app_assoc; simpl; eexists; split; reflexivity.

(** The client always returns, touches no row, and only appends to the
    record of calls. *)
Lemma verify_email_hunter_run env email w :
  exists v,
    verification_of env email = Return v /\
    verify_email_hunter env email w =
      (Return v, mkWorld (committed w) (session w)
                   (trace w ++ verification_trace env email)).
Proof.
  unfold verification_of, verification_trace, verify_email_hunter, get_url.
  unfold_monad; simpl.
  destruct (decide _) as [Hmock | Hkey]; simpl.
  { eexists; split; reflexivity. }
  destruct (client_get env (hunter_url env email)) as [response | e]; simpl.
  - destruct (raise_for_status response) as [[] | e]; simpl; [ | destruct e; verify_done ].
    destruct (json response) as [data | e]; simpl; [ | destruct e; verify_done ].
    destruct (getitem data "data") as [inner | e]; simpl; [ | destruct e; verify_done ].
    destruct (get inner "score" (PInt 50)) as [s | e]; simpl;
      [ | destruct e ]; verify_done.
  - destruct e; verify_done.
Qed.

Lemma verification_trace_mocked env email :
  ~ configured env -> verification_trace env email = [CallVerify email].
Proof.
  intros Hno. unfold verification_trace, verify_email_hunter. unfold_monad; simpl.
  destruct (decide _) as [_ | Hkey]; [reflexivity |].
  exfalso. apply Hno. unfold configured. tauto.
Qed.

Lemma verification_of_mocked env email :
  ~ configured env ->
  verification_of env email = Return (mkVerification (PInt 50) "mocked_key").
Proof.
  intros Hno. unfold verification_of, verify_email_hunter. unfold_monad; simpl.
  destruct (decide _) as [_ | Hkey]; [reflexivity |].
  exfalso. apply Hno. unfold configured. tauto.
Qed.

(** With a credential, the outcome is decided by what [client.get] gives. *)
Lemma verification_of_configured env email :
  configured env ->
  verification_of env email =
    match client_get env (hunter_url env email) with
    | Return response =>
        match raise_for_status response with
        | Raise _ => Return (mkVerification (PInt 40) "api_error")
        | Return _ =>
            match Exc_bind (json response) (fun data =>
                  Exc_bind (getitem data "data") (fun inner =>
                  get inner "score" (PInt 50))) with
            | Return s => Return (mkVerification s "verified")
            | Raise _ => Return (mkVerification (PInt 48) "unexpected_error")
            end
        end
    | Raise HTTPStatusError => Return (mkVerification (PInt 40) "api_error")
    | Raise (RequestError _) => Return (mkVerification (PInt 45) "network_error")
    | Raise _ => Return (mkVerification (PInt 48) "unexpected_error")
    end.
Proof.
  intros [Hne Hmock].
  unfold verification_of, verify_email_hunter, get_url. unfold_monad; simpl.
  destruct (decide _) as [[?|?] | _]; [done | done |]; simpl.
  destruct (client_get env (hunter_url env email)) as [response | e]; simpl;
    [ | destruct e; reflexivity ].
  unfold raise_for_status.
  destruct (decide _); simpl; [ | reflexivity ].
  unfold json. destruct (content response) as [data |]; simpl; [ | reflexivity ].
  unfold getitem. destruct data; simpl; try reflexivity.
  destruct (dict_lookup "data" items) as [inner |]; simpl; [ | reflexivity ].
  destruct inner; reflexivity.
Qed.

(** ** The table's constraints *)

Lemma store_ok_nil : store_ok [].
Proof. repeat split; constructor. Qed.

Lemma store_ok_key st r i :
  store_ok st -> r ∈ st -> Contact.id r = Some i -> is_int64 i.
Proof.
  intros (_ & _ & _ & Hkeys) Hin Hid. rewrite Forall_forall in Hkeys. by eapply Hkeys.
Qed.

Lemma store_ok_unique st : store_ok st -> emails_unique st.
Proof.
  intros (_ & _ & Hemails & _) e. unfold holders.
  induction st as [| r st IH]; [simpl; lia |].
  rewrite fmap_cons in Hemails. apply NoDup_cons in Hemails as [Hnotin Hrest].
  rewrite filter_cons. destruct (decide (where_email (Some e) r)) as [Hr | Hr].
  - assert (Hnone : filter (where_email (Some e)) st = []).
    { destruct (filter _ st) as [| r' l] eqn:Hf; [done |].
      assert (Hin : r' ∈ filter (where_email (Some e)) st) by (rewrite Hf; left).
      apply list_elem_of_filter in Hin as [Hr' Hin].
      exfalso. apply Hnotin. unfold where_email in *. rewrite Hr, <- Hr'.
      by apply list_elem_of_fmap_2. }
    rewrite Hnone. simpl. lia.
  - by apply IH.
Qed.

Lemma next_id_above rows r i :
  r ∈ rows -> Contact.id r = Some i -> (i < next_id rows)%Z.
Proof.
  unfold next_id. induction 1 as [r rows | r r' rows Hin IH]; simpl; intros Hi.
  - rewrite Hi. simpl. lia.
  - specialize (IH Hi). lia.
Qed.

Lemma next_id_fresh rows : Some (next_id rows) ∉ Contact.id <$> rows.
Proof.
  intros (r & Hid & Hin)%list_elem_of_fmap.
  symmetry in Hid. pose proof (next_id_above _ _ _ Hin Hid). lia.
Qed.

Lemma email_taken_by_other_false rows c :
  email_taken_by_other rows c = false ->
  forall r, r ∈ rows -> Contact.id r <> Contact.id c ->
            Contact.email r <> Contact.email c.
Proof.
  unfold email_taken_by_other. intros Hb r Hin Hid Hemail.
  apply bool_decide_eq_false in Hb. apply Hb.
  apply Exists_exists. eauto.
Qed.

Lemma store_ok_insert rows row :
  store_ok rows ->
  Contact.id row = Some (next_id rows) ->
  is_int64 (next_id rows) ->
  not_null_ok row = true ->
  email_taken_by_other rows row = false ->
  store_ok (rows ++ [row]).
Proof.
  intros (Hall & Hids & Hemails & Hkeys) Hid Hkey Hnn Hfree.
  split; [ | split; [ | split ] ]; cycle 3.
  { apply Forall_app. split; [done |].
    constructor; [ | constructor ]. intros i. rewrite Hid. by intros [= <-]. }
  - apply Forall_app. split; [done |].
    constructor; [ | constructor ]. split; [by rewrite Hid | by rewrite Hnn].
  - rewrite fmap_app. apply NoDup_app. repeat split; [done | | apply NoDup_singleton].
    intros i Hi Hi'. simpl in Hi'. apply list_elem_of_singleton in Hi'. subst i.
    rewrite Hid in Hi. by apply next_id_fresh in Hi.
  - rewrite fmap_app. apply NoDup_app. repeat split; [done | | apply NoDup_singleton].
    intros e He He'. simpl in He'. apply list_elem_of_singleton in He'. subst e.
    apply list_elem_of_fmap in He as (r & Hr & Hin).
    eapply email_taken_by_other_false; [done | done | | done].
    rewrite Hid. intros Heq. apply (next_id_fresh rows).
    rewrite <- Heq. by apply list_elem_of_fmap_2.
Qed.

(** The row list after [UPDATE ... WHERE id = c.id]. *)
Lemma replace_absent (c : Contact.t) rows :
  Contact.id c ∉ Contact.id <$> rows -> replaced c rows = rows.
Proof.
  unfold replaced. induction rows as [| r rows IH]; simpl; [done |].
  intros Hnotin. apply not_elem_of_cons in Hnotin as [Hne Hrest].
  destruct (decide _) as [Heq | _]; [congruence |]. by rewrite IH.
Qed.

Lemma replace_ids (c : Contact.t) rows :
  Contact.id <$> replaced c rows = Contact.id <$> rows.
Proof.
  unfold replaced. induction rows as [| r rows IH]; simpl; [done |].
  f_equal; [ | exact IH ]. by destruct (decide _) as [-> | _].
Qed.

Lemma store_ok_replace rows c :
  store_ok rows ->
  not_null_ok c = true ->
  email_taken_by_other rows c = false ->
  store_ok (replaced c rows).
Proof.
  intros (Hall & Hids & Hemails & Hkeys) Hnn Hfree.
  pose proof (email_taken_by_other_false _ _ Hfree) as Hother. clear Hfree.
  split; [ | split; [ | split ] ]; cycle 3.
  { apply Forall_forall. intros r' (r & -> & Hin)%list_elem_of_fmap.
    rewrite Forall_forall in Hkeys. specialize (Hkeys r Hin).
    destruct (decide _) as [Heq | _]; [ | done ].
    intros i Hi. apply Hkeys. congruence. }
  - apply Forall_forall. intros r' (r & -> & Hin)%list_elem_of_fmap.
    rewrite Forall_forall in Hall. specialize (Hall r Hin).
    destruct (decide _) as [Heq | _]; [ | done ].
    split; [rewrite <- Heq; tauto | by rewrite Hnn].
  - by rewrite replace_ids.
  - clear Hkeys. induction rows as [| r rows IH]; [constructor |].
    change (replaced c (r :: rows))
      with ((if decide (Contact.id r = Contact.id c) then c else r) :: replaced c rows).
    rewrite !fmap_cons in *.
    apply NoDup_cons in Hids as [Hid Hids].
    apply NoDup_cons in Hemails as [Hemail Hemails].
    apply Forall_cons in Hall as [_ Hall].
    destruct (decide (Contact.id r = Contact.id c)) as [Heq | Hne].
    + rewrite replace_absent by (by rewrite <- Heq).
      apply NoDup_cons. split; [ | done ].
      intros (r' & Hr' & Hin)%list_elem_of_fmap.
      apply (Hother r'); [by right | | done].
      intros Heq'. apply Hid. rewrite Heq, <- Heq'. by apply list_elem_of_fmap_2.
    + apply NoDup_cons. split.
      * intros (r' & Hr' & (r0 & -> & Hin)%list_elem_of_fmap)%list_elem_of_fmap.
        destruct (decide _) as [_ | _].
        -- apply (Hother r); [by left | done | done].
        -- apply Hemail. rewrite Hr'. by apply list_elem_of_fmap_2.
      * apply IH; [done | done | done |].
        intros r' Hin. apply Hother. by right.
Qed.

Lemma store_ok_filter (P : Contact.t -> Prop) `{forall r, Decision (P r)} rows :
  store_ok rows -> store_ok (filter P rows).
Proof.
  intros (Hall & Hids & Hemails & Hkeys).
  split; [ | split; [ | split ] ]; cycle 3.
  { apply Forall_forall. intros r [_ Hin]%list_elem_of_filter.
    rewrite Forall_forall in Hkeys. by apply Hkeys. }
  - apply Forall_forall. intros r [_ Hin]%list_elem_of_filter.
    rewrite Forall_forall in Hall. by apply Hall.
  - apply (sublist_NoDup _ (Contact.id <$> rows)); [ exact Hids | ].
    apply fmap_sublist. apply sublist_filter.
  - apply (sublist_NoDup _ (Contact.email <$> rows)); [ exact Hemails | ].
    apply fmap_sublist. apply sublist_filter.
Qed.

(** ** Every computation keeps the constraints *)

Lemma keeps_ret {A} (a : A) : keeps_ok (ret a).
Proof. by intros w Hw. Qed.

Lemma keeps_raise {A} e : keeps_ok (@raise A e).
Proof. by intros w Hw. Qed.

Lemma keeps_lift {A} (r : Exc A) : keeps_ok (lift r).
Proof. by intros w Hw. Qed.

Lemma keeps_log ev : keeps_ok (log ev).
Proof. by intros w Hw. Qed.

Lemma keeps_bind {A B} (m : M A) (k : A -> M B) :
  keeps_ok m -> (forall a, keeps_ok (k a)) -> keeps_ok (bind m k).
Proof.
  intros Hm Hk w Hw. unfold bind. specialize (Hm w Hw).
  destruct (m w) as [[a | e] w']; simpl in *; [by apply Hk | done].
Qed.

Lemma keeps_try_except {A} (body : M A) handler :
  keeps_ok body -> (forall e, keeps_ok (handler e)) -> keeps_ok (try_except body handler).
Proof.
  intros Hm Hk w Hw. unfold try_except. specialize (Hm w Hw).
  destruct (body w) as [[a | e] w']; simpl in *; [done | by apply Hk].
Qed.

Lemma keeps_get_db {A} (handler : M A) : keeps_ok handler -> keeps_ok (get_db handler).
Proof.
  intros Hm w [Hw _]. unfold get_db.
  specialize (Hm (mkWorld (committed w) (committed w) (trace w)) (conj Hw Hw)).
  destruct (handler _) as [r w']; simpl in *. split; apply Hm.
Qed.

Lemma keeps_get_session : keeps_ok get_session.
Proof. by intros w Hw. Qed.

Lemma keeps_commit : keeps_ok commit.
Proof. intros w [_ Hw]. by split. Qed.

Lemma keeps_rollback : keeps_ok rollback.
Proof. intros w [Hw _]. by split. Qed.

Lemma keeps_execute_select parameters P `{forall r, Decision (P r)} :
  keeps_ok (execute_select parameters P).
Proof.
  intros w Hw. unfold execute_select; unfold_monad.
  by destruct (bind_parameters parameters).
Qed.

Lemma keeps_execute_check x : keeps_ok (execute_check x).
Proof.
  intros w Hw. unfold execute_check, execute_select; unfold_monad; simpl.
  by destruct (bind_parameters _).
Qed.

Lemma keeps_execute_delete parameters P `{forall r, Decision (P r)} :
  keeps_ok (execute_delete parameters P).
Proof.
  intros w [Hc Hs]. unfold execute_delete; unfold_monad; simpl.
  destruct (bind_parameters parameters); simpl; [ | by split ].
  split; [done | by apply store_ok_filter].
Qed.

Lemma keeps_flush_insert text_or_real c : keeps_ok (flush_insert text_or_real c).
Proof.
  intros w [Hc Hs]. unfold flush_insert; unfold_monad; simpl.
  destruct (bind_integer _ _) as [stored_score | e]; simpl; [ | by split ].
  destruct (decide (is_int64 _)) as [Hkey | _]; simpl; [ | by split ].
  destruct (not_null_ok _) eqn:Hnn; simpl; [ | by split ].
  destruct (email_taken_by_other _ _) eqn:Hfree; simpl; [ by split | ].
  split; [done |]. by apply store_ok_insert.
Qed.

Lemma keeps_flush_update text_or_real c : keeps_ok (flush_update text_or_real c).
Proof.
  intros w [Hc Hs]. unfold flush_update; unfold_monad; simpl.
  destruct (write_score _ _ _) as [stored_score | e]; simpl; [ | by split ].
  destruct (not_null_ok _) eqn:Hnn; simpl; [ | by split ].
  destruct (email_taken_by_other _ _) eqn:Hfree; simpl; [ by split | ].
  split; [done |]. by apply store_ok_replace.
Qed.

Lemma keeps_refresh c : keeps_ok (refresh c).
Proof.
  intros w Hw. unfold refresh; unfold_monad; simpl.
  by destruct (first _).
Qed.

Lemma keeps_verify env email : keeps_ok (verify_email_hunter env email).
Proof.
  intros w Hw. destruct (verify_email_hunter_run env email w) as (v & _ & ->).
  exact Hw.
Qed.

Lemma keeps_add_all objs : keeps_ok (add_all objs).
Proof.
  induction objs as [| obj objs IH]; simpl; [apply keeps_ret |].
  apply keeps_bind; [apply keeps_flush_insert | done].
Qed.

Create HintDb keeps discriminated.
#[local] Hint Resolve keeps_ret keeps_raise keeps_lift keeps_log keeps_get_session
  keeps_commit keeps_rollback keeps_execute_select keeps_execute_check
  keeps_execute_delete
  keeps_flush_insert keeps_flush_update keeps_refresh keeps_verify keeps_add_all
  : keeps.

(** Walks a handler's text: a bind splits, a branch is taken both ways. *)
Ltac keeps_step :=
  match goal with
  | |- keeps_ok (get_db _) => apply keeps_get_db
  | |- keeps_ok (bind _ _) => apply keeps_bind; [ | intros ? ]
  | |- keeps_ok (try_except _ _) => apply keeps_try_except; [ | intros ? ]
  | |- keeps_ok (match ?x with _ => _ end) => destruct x
  | |- keeps_ok (if ?x then _ else _) => destruct x
  | |- keeps_ok _ => solve [ auto with keeps ]
  end.

Lemma keeps_handle env req : keeps_ok (handle env req).
Proof.
  destruct req; simpl;
    unfold discard, on_startup, verify_email_endpoint, create_contact, read_contacts,
      read_contact, update_contact_put, update_contact_patch, delete_contact,
      add_commit, commit_changed;
    repeat keeps_step.
Qed.

Lemma step_ok env req st : store_ok st -> store_ok (step env req st).
Proof.
  intros Hst. unfold step, run.
  apply (keeps_handle env req (at_rest st)). by split.
Qed.

Lemma reachable_ok st : reachable st -> store_ok st.
Proof.
  induction 1 as [| env req st _ IH]; [apply store_ok_nil | by apply step_ok].
Qed.

(** ** What each handler does, case by case *)

Lemma no_holder_not_taken x st c :
  filter (where_email x) st = [] -> Contact.email c = x ->
  email_taken_by_other st c = false.
Proof.
  intros Hnone Hc. unfold email_taken_by_other. apply bool_decide_eq_false.
  intros (r & Hin & _ & Hr)%Exists_exists.
  eapply (filter_nil_not_elem_of (where_email x)); [exact Hnone | | exact Hin].
  unfold where_email. congruence.
Qed.

Lemma filter_fresh_id st :
  filter (fun r => Contact.id r = Some (next_id st)) st = [].
Proof.
  destruct (filter _ st) as [| r l] eqn:Hf; [done |].
  assert (Hin : r ∈ filter (fun r => Contact.id r = Some (next_id st)) st)
    by (rewrite Hf; left).
  apply list_elem_of_filter in Hin as [Hid Hin].
  pose proof (next_id_above _ _ _ Hin Hid). lia.
Qed.

(** Create, email already held: 409, nothing written. *)
Lemma create_contact_conflict env contact_in st :
  holders (ContactCreate.email contact_in) st <> [] ->
  run (create_contact env contact_in) st =
    (Raise (HTTPException HTTP_409_CONFLICT
              ("Contact with email " +:+ ContactCreate.email contact_in +:+
               " already exists.")),
     mkWorld st st
       (verification_trace env (Some (ContactCreate.email contact_in)) ++
        [CheckEmail (Some (ContactCreate.email contact_in))])).
Proof.
  intros Hheld. unfold create_contact, execute_check, execute_select.
  unfold_monad; simpl.
  destruct (verify_email_hunter_run env (Some (ContactCreate.email contact_in))
              (mkWorld st st [])) as (v & _ & ->); simpl.
  unfold holders in Hheld.
  destruct (filter _ st) as [| r l]; [done | reflexivity].
Qed.

(** Create, email free: the score is bound and the key assigned, and the
    row is appended with the score as the column keeps it; a score the
    driver refuses, or a table out of keys, ends the create with nothing
    written. *)
Lemma create_contact_fresh env contact_in st v :
  holders (ContactCreate.email contact_in) st = [] ->
  verification_of env (Some (ContactCreate.email contact_in)) = Return v ->
  run (create_contact env contact_in) st =
    match bind_integer (numeric_affinity env) (score v) with
    | Raise e =>
        (Raise e,
         mkWorld st st
           (verification_trace env (Some (ContactCreate.email contact_in)) ++
            [CheckEmail (Some (ContactCreate.email contact_in))]))
    | Return stored_score =>
        let new :=
          Contact.Contact (Some (next_id st))
            (Some (ContactCreate.first_name contact_in))
            (Some (ContactCreate.last_name contact_in))
            (Some (ContactCreate.email contact_in))
            (ContactCreate.phone contact_in) stored_score in
        if decide (is_int64 (next_id st)) then
          (Return new,
           mkWorld (st ++ [new]) (st ++ [new])
             (verification_trace env (Some (ContactCreate.email contact_in)) ++
              [CheckEmail (Some (ContactCreate.email contact_in))]))
        else
          (Raise (PyError "OperationalError"),
           mkWorld st st
             (verification_trace env (Some (ContactCreate.email contact_in)) ++
              [CheckEmail (Some (ContactCreate.email contact_in))]))
    end.
Proof.
  intros Hfree Hv.
  unfold create_contact, execute_check, execute_select, add_commit, flush_insert,
    refresh.
  unfold_monad; simpl.
  destruct (verify_email_hunter_run env (Some (ContactCreate.email contact_in))
              (mkWorld st st [])) as (v' & Hv' & ->); simpl.
  assert (v' = v) as -> by congruence.
  unfold holders in Hfree. rewrite Hfree; simpl.
  destruct (bind_integer (numeric_affinity env) (score v)) as [stored_score | e];
    simpl; [ | reflexivity ].
  destruct (decide (is_int64 (next_id st))) as [Hkey | Hkey]; simpl; [ | reflexivity ].
  match goal with |- context [email_taken_by_other st ?c] => set (new := c) end.
  rewrite (no_holder_not_taken (Some (ContactCreate.email contact_in)) st new) by done.
  simpl. rewrite filter_app, filter_fresh_id. simpl.
  rewrite filter_cons_True by done. reflexivity.
Qed.

Lemma row_Some i st old :
  row i st = Some old -> old ∈ st /\ Contact.id old = Some i.
Proof.
  unfold row, first. intros (l & Hl)%head_Some.
  assert (Hin : old ∈ filter (where_id i) st) by (rewrite Hl; left).
  apply list_elem_of_filter in Hin as [Hid Hin]. by split.
Qed.

Lemma row_None i st r : row i st = None -> r ∈ st -> Contact.id r <> Some i.
Proof.
  unfold row, first. intros Hnone%head_None Hin Hid.
  by eapply (filter_nil_not_elem_of (where_id i)).
Qed.

(** Under the key constraint a row is found by its key. *)
Lemma row_elem_of i st r :
  NoDup (Contact.id <$> st) -> r ∈ st -> Contact.id r = Some i -> row i st = Some r.
Proof.
  unfold row, first. intros Hids Hin Hid.
  induction st as [| r' st IH]; [by apply elem_of_nil in Hin |].
  rewrite fmap_cons in Hids. apply NoDup_cons in Hids as [Hnotin Hids].
  rewrite filter_cons. apply elem_of_cons in Hin as [<- | Hin].
  - by rewrite decide_True.
  - rewrite decide_False; [by apply IH |].
    unfold where_id. intros Hr'. apply Hnotin. rewrite Hr', <- Hid.
    by apply list_elem_of_fmap_2.
Qed.

Lemma same_email_same_row st r1 r2 :
  NoDup (Contact.email <$> st) -> r1 ∈ st -> r2 ∈ st ->
  Contact.email r1 = Contact.email r2 -> r1 = r2.
Proof.
  intros Hemails Hin1 Hin2 Heq.
  induction st as [| r st IH]; [by apply elem_of_nil in Hin1 |].
  rewrite fmap_cons in Hemails. apply NoDup_cons in Hemails as [Hnotin Hemails].
  apply elem_of_cons in Hin1 as [-> | Hin1]; apply elem_of_cons in Hin2 as [-> | Hin2].
  - done.
  - exfalso. apply Hnotin. rewrite Heq. by apply list_elem_of_fmap_2.
  - exfalso. apply Hnotin. rewrite <- Heq. by apply list_elem_of_fmap_2.
  - by apply IH.
Qed.

(** A row that keeps its email passes the UNIQUE check. *)
Lemma same_email_not_taken st old c :
  store_ok st -> old ∈ st ->
  Contact.id c = Contact.id old -> Contact.email c = Contact.email old ->
  email_taken_by_other st c = false.
Proof.
  intros (_ & _ & Hemails & _) Hold Hid Hemail.
  unfold email_taken_by_other. apply bool_decide_eq_false.
  intros (r & Hin & Hne & Hr)%Exists_exists.
  apply Hne. rewrite Hid. f_equal.
  apply (same_email_same_row st); [done | done | done | congruence].
Qed.

Lemma first_replaced c st :
  Contact.id c ∈ Contact.id <$> st ->
  first (filter (fun r => Contact.id r = Contact.id c) (replaced c st)) = Some c.
Proof.
  unfold replaced, first. induction st as [| r st IH]; simpl.
  - intros H. by apply elem_of_nil in H.
  - intros Hin. destruct (decide (Contact.id r = Contact.id c)) as [Heq | Hne].
    + by rewrite filter_cons_True.
    + rewrite filter_cons_False by done. apply IH.
      apply elem_of_cons in Hin as [Heq | Hin]; [congruence | done].
Qed.

Lemma lookup_email_model_dump contact_in :
  lookup_email (model_dump_exclude_unset contact_in) = ContactUpdate.email contact_in.
Proof.
  destruct contact_in as [[fn |] [ln |] [em |] [ph |]]; reflexivity.
Qed.

Lemma setattr_model_dump old contact_in :
  foldl setattr old (model_dump_exclude_unset contact_in)
  = overwritten old contact_in (Contact.hunter_score old).
Proof.
  destruct old, contact_in as [[fn |] [ln |] [em |] [ph |]]; reflexivity.
Qed.

Lemma setattr_model_dump_score old contact_in s :
  foldl setattr old (setitem (model_dump_exclude_unset contact_in) (hunter_score_ s))
  = overwritten old contact_in s.
Proof.
  destruct old, contact_in as [[fn |] [ln |] [em |] [ph |]]; reflexivity.
Qed.

Ltac unfold_handler :=
  unfold update_contact_put, update_contact_patch, delete_contact, read_contact,
    read_contacts, execute_select, execute_delete, commit_changed, flush_update,
    refresh;
  unfold_monad; simpl.

Lemma row_loaded i st old c :
  row i st = Some old -> Contact.id c = Some i ->
  first (filter (fun r => Contact.id r = Contact.id c) st) = Some old.
Proof.
  intros Hrow Hid. unfold row in Hrow. rewrite <- Hrow. f_equal.
  apply list_filter_iff. intros r. unfold where_id. by rewrite Hid.
Qed.

(** The tail shared by PUT and PATCH: flush, commit, read back. *)
Lemma write_back text_or_real st i old new tr :
  row i st = Some old -> Contact.id new = Some i ->
  email_taken_by_other st new = false ->
  bind (commit_changed text_or_real new) (fun _ => bind (refresh new) (fun c => ret c))
       (mkWorld st st tr)
  = match write_score text_or_real (Some (Contact.hunter_score old))
            (Contact.hunter_score new) with
    | Raise e => (Raise e, mkWorld st st tr)
    | Return stored_score =>
        if not_null_ok new
        then (Return (with_score new stored_score),
              mkWorld (replaced (with_score new stored_score) st)
                      (replaced (with_score new stored_score) st) tr)
        else (Raise (IntegrityError "NOT NULL constraint failed"), mkWorld st st tr)
    end.
Proof.
  intros Hrow Hid Hfree. unfold_handler.
  rewrite (row_loaded i st old new Hrow Hid). simpl.
  destruct (write_score _ _ _) as [stored_score | e]; simpl; [ | reflexivity ].
  change (not_null_ok (with_score new stored_score)) with (not_null_ok new).
  destruct (not_null_ok new); simpl; [ | reflexivity ].
  change (email_taken_by_other st (with_score new stored_score))
    with (email_taken_by_other st new).
  rewrite Hfree; simpl.
  change (Contact.id new) with (Contact.id (with_score new stored_score)).
  rewrite first_replaced; [reflexivity |].
  simpl. rewrite Hid. apply row_Some in Hrow as [Hin <-]. by apply list_elem_of_fmap_2.
Qed.

Lemma write_score_same text_or_real s : write_score text_or_real (Some s) s = Return s.
Proof. unfold write_score. by rewrite decide_True. Qed.

Lemma with_score_same c : with_score c (Contact.hunter_score c) = c.
Proof. by destruct c. Qed.

Lemma bind_ret {A B} (a : A) (k : A -> M B) w : bind (ret a) k w = k a w.
Proof. reflexivity. Qed.

Lemma bind_raise {A B} e (k : A -> M B) w : bind (raise e) k w = (Raise e, w).
Proof. reflexivity. Qed.

Lemma bind_bind {A B C} (m : M A) (f : A -> M B) (g : B -> M C) w :
  bind (bind m f) g w = bind m (fun a => bind (f a) g) w.
Proof. unfold bind. by destruct (m w) as [[a | e] w']. Qed.

Lemma bind_key i :
  bind_parameters [PInt i] =
    if decide (is_int64 i) then Return tt else Raise (PyError "OverflowError").
Proof. simpl. by destruct (decide _). Qed.

Lemma bind_select {B} parameters P `{forall r, Decision (P r)}
    (k : list Contact.t -> M B) w :
  bind_parameters parameters = Return tt ->
  bind (execute_select parameters P) k w = k (filter P (session w)) w.
Proof. intros Hbind. unfold execute_select, bind, lift. by rewrite Hbind. Qed.

Lemma bind_select_refused {B} parameters P `{forall r, Decision (P r)}
    (k : list Contact.t -> M B) w e :
  bind_parameters parameters = Raise e ->
  bind (execute_select parameters P) k w = (Raise e, w).
Proof. intros Hbind. unfold execute_select, bind, lift. by rewrite Hbind. Qed.

Lemma select_by_id {B} i (k : list Contact.t -> M B) w :
  is_int64 i ->
  bind (execute_select [PInt i] (where_id i)) k w = k (filter (where_id i) (session w)) w.
Proof. intros Hi. apply bind_select. rewrite bind_key. by rewrite decide_True. Qed.

Lemma bind_check {B} x (k : list Contact.t -> M B) w :
  bind (execute_check x) k w =
    k (filter (where_email x) (session w))
      (mkWorld (committed w) (session w) (trace w ++ [CheckEmail x])).
Proof. by destruct x. Qed.

Lemma bind_verify {B} env email (k : Verification -> M B) w :
  exists v,
    verification_of env email = Return v /\
    bind (verify_email_hunter env email) k w =
      k v (mkWorld (committed w) (session w) (trace w ++ verification_trace env email)).
Proof.
  destruct (verify_email_hunter_run env email w) as (v & Hv & Hrun).
  exists v. split; [done |]. unfold bind. by rewrite Hrun.
Qed.

(** PUT and PATCH, no row with the key: 404, nothing written, no call. *)
Lemma update_contact_put_not_found env contact_id contact_in st :
  is_int64 contact_id ->
  row contact_id st = None ->
  run (update_contact_put env contact_id contact_in) st =
    (Raise (HTTPException HTTP_404_NOT_FOUND "Contact not found"), mkWorld st st []).
Proof.
  intros Hkey Hrow. unfold run, at_rest, update_contact_put, get_db; simpl.
  rewrite select_by_id by done; simpl. unfold row in Hrow. by rewrite Hrow.
Qed.

Lemma update_contact_patch_not_found env contact_id contact_in st :
  is_int64 contact_id ->
  row contact_id st = None ->
  run (update_contact_patch env contact_id contact_in) st =
    (Raise (HTTPException HTTP_404_NOT_FOUND "Contact not found"), mkWorld st st []).
Proof.
  intros Hkey Hrow. unfold run, at_rest, update_contact_patch, get_db; simpl.
  rewrite select_by_id by done; simpl. unfold row in Hrow. by rewrite Hrow.
Qed.

(** An id that does not fit 64 bits is refused by the driver before any row
    is looked at. *)
Lemma update_contact_put_overflow env contact_id contact_in st :
  ~ is_int64 contact_id ->
  run (update_contact_put env contact_id contact_in) st =
    (Raise (PyError "OverflowError"), mkWorld st st []).
Proof.
  intros Hkey. unfold run, at_rest, update_contact_put, get_db; simpl.
  rewrite (bind_select_refused _ _ _ _ (PyError "OverflowError")); [done |].
  rewrite bind_key. by rewrite decide_False.
Qed.

Lemma update_contact_patch_overflow env contact_id contact_in st :
  ~ is_int64 contact_id ->
  run (update_contact_patch env contact_id contact_in) st =
    (Raise (PyError "OverflowError"), mkWorld st st []).
Proof.
  intros Hkey. unfold run, at_rest, update_contact_patch, get_db; simpl.
  rewrite (bind_select_refused _ _ _ _ (PyError "OverflowError")); [done |].
  rewrite bind_key. by rewrite decide_False.
Qed.

Lemma row_key st i old : store_ok st -> row i st = Some old -> is_int64 i.
Proof. intros Hok [Hin Hid]%row_Some. by eapply store_ok_key. Qed.

(** PUT with the email the row already has: the score is kept, nothing is
    verified, every other field is written. *)
Lemma update_contact_put_keep env contact_id contact_in st old :
  store_ok st ->
  row contact_id st = Some old ->
  Contact.email old = Some (ContactCreate.email contact_in) ->
  let new := overwritten old (all_fields contact_in) (Contact.hunter_score old) in
  run (update_contact_put env contact_id contact_in) st =
    (Return new, mkWorld (replaced new st) (replaced new st) []).
Proof.
  intros Hok Hrow Hemail new.
  pose proof (row_key _ _ _ Hok Hrow) as Hkey.
  destruct (row_Some _ _ _ Hrow) as [Hin Hid].
  unfold run, at_rest, update_contact_put, get_db; simpl.
  rewrite select_by_id by done; simpl. pose proof Hrow as Hrow'.
  unfold row in Hrow'. rewrite Hrow'.
  destruct (decide (Contact.email old <> _)) as [Hne | _]; [done |].
  rewrite bind_ret.
  change (Contact.Contact _ _ _ _ _ _) with new.
  rewrite (write_back _ st contact_id old new) by
    (try done; apply (same_email_not_taken st old); done).
  change (Contact.hunter_score new) with (Contact.hunter_score old).
  rewrite write_score_same.
  change (Contact.hunter_score old) with (Contact.hunter_score new).
  rewrite with_score_same. reflexivity.
Qed.

(** PUT with another email that some row holds: 409, nothing written, no
    call. *)
Lemma update_contact_put_conflict env contact_id contact_in st old :
  is_int64 contact_id ->
  row contact_id st = Some old ->
  Contact.email old <> Some (ContactCreate.email contact_in) ->
  holders (ContactCreate.email contact_in) st <> [] ->
  run (update_contact_put env contact_id contact_in) st =
    (Raise (HTTPException HTTP_409_CONFLICT
              ("Email " +:+ ContactCreate.email contact_in +:+
               " is already in use by another contact.")),
     mkWorld st st [CheckEmail (Some (ContactCreate.email contact_in))]).
Proof.
  intros Hkey Hrow Hemail Hheld.
  unfold run, at_rest, update_contact_put, get_db; simpl.
  rewrite select_by_id by done; simpl. unfold row in Hrow. rewrite Hrow.
  rewrite decide_True by done.
  rewrite bind_bind, bind_check; simpl.
  unfold holders in Hheld. by destruct (filter (where_email _) st).
Qed.

(** PUT with another email that no row holds: verified once; written with
    the new score as the column keeps it, unless the driver refuses the
    score. *)
Lemma update_contact_put_changed env contact_id contact_in st old v :
  is_int64 contact_id ->
  row contact_id st = Some old ->
  Contact.email old <> Some (ContactCreate.email contact_in) ->
  holders (ContactCreate.email contact_in) st = [] ->
  verification_of env (Some (ContactCreate.email contact_in)) = Return v ->
  run (update_contact_put env contact_id contact_in) st =
    match write_score (numeric_affinity env) (Some (Contact.hunter_score old))
            (score v) with
    | Raise e =>
        (Raise e,
         mkWorld st st
           (CheckEmail (Some (ContactCreate.email contact_in)) ::
            verification_trace env (Some (ContactCreate.email contact_in))))
    | Return stored_score =>
        let new := overwritten old (all_fields contact_in) stored_score in
        (Return new,
         mkWorld (replaced new st) (replaced new st)
           (CheckEmail (Some (ContactCreate.email contact_in)) ::
            verification_trace env (Some (ContactCreate.email contact_in))))
    end.
Proof.
  intros Hkey Hrow Hemail Hfree Hv.
  destruct (row_Some _ _ _ Hrow) as [Hin Hid].
  unfold run, at_rest, update_contact_put, get_db; simpl.
  rewrite select_by_id by done; simpl. pose proof Hrow as Hrow'.
  unfold row in Hrow'. rewrite Hrow'.
  rewrite decide_True by done.
  rewrite bind_bind, bind_check; simpl.
  unfold holders in Hfree. rewrite Hfree; simpl.
  rewrite bind_bind.
  match goal with
  | |- context [bind (verify_email_hunter env ?e) ?k ?w] =>
      destruct (bind_verify env e k w) as (v' & Hv' & ->)
  end.
  assert (v' = v) as -> by congruence. simpl.
  rewrite bind_ret.
  match goal with
  | |- context [commit_changed _ ?c] => set (new := c)
  end.
  rewrite (write_back _ st contact_id old new) by
    (try done; apply (no_holder_not_taken (Some (ContactCreate.email contact_in))); done).
  change (Contact.hunter_score new) with (score v).
  by destruct (write_score _ _ _).
Qed.

(** PATCH that leaves the email alone, by not setting it or by setting it to
    what the row has: nothing is verified; the set fields are written unless
    a name is set to null, which the table refuses. *)
Lemma update_contact_patch_keep env contact_id contact_in st old :
  store_ok st ->
  row contact_id st = Some old ->
  ContactUpdate.email contact_in = None \/
    ContactUpdate.email contact_in = Some (Contact.email old) ->
  let new := overwritten old contact_in (Contact.hunter_score old) in
  run (update_contact_patch env contact_id contact_in) st =
    if not_null_ok new
    then (Return new, mkWorld (replaced new st) (replaced new st) [])
    else (Raise (IntegrityError "NOT NULL constraint failed"), mkWorld st st []).
Proof.
  intros Hok Hrow Hemail new.
  pose proof (row_key _ _ _ Hok Hrow) as Hkey.
  destruct (row_Some _ _ _ Hrow) as [Hin Hid].
  unfold run, at_rest, update_contact_patch, get_db; simpl.
  rewrite select_by_id by done; simpl. pose proof Hrow as Hrow'.
  unfold row in Hrow'. rewrite Hrow'.
  rewrite lookup_email_model_dump.
  assert (Hnew : Contact.email new = Contact.email old).
  { subst new. simpl. by destruct Hemail as [-> | ->]. }
  assert (Hbody :
    (match ContactUpdate.email contact_in with
     | Some new_email =>
         if decide (new_email <> Contact.email old) then
           do result_check <- execute_check new_email;
           if first result_check is Some _ then
             raise (HTTPException HTTP_409_CONFLICT
                      ("Email " +:+ str new_email +:+
                       " is already in use by another contact."))
           else
             do verification_result <- verify_email_hunter env new_email;
             ret (setitem (model_dump_exclude_unset contact_in)
                    (hunter_score_ (score verification_result)))
         else ret (model_dump_exclude_unset contact_in)
     | None => ret (model_dump_exclude_unset contact_in)
     end) = ret (model_dump_exclude_unset contact_in)).
  { destruct Hemail as [-> | ->]; [done |]. by destruct (decide _). }
  rewrite Hbody, bind_ret, setattr_model_dump. fold new.
  rewrite (write_back _ st contact_id old new) by
    (try done; apply (same_email_not_taken st old); done).
  change (Contact.hunter_score new) with (Contact.hunter_score old).
  rewrite write_score_same.
  change (Contact.hunter_score old) with (Contact.hunter_score new).
  rewrite with_score_same.
  by destruct (not_null_ok new).
Qed.

(** PATCH to an email that some row holds: 409, nothing written, no call. *)
Lemma update_contact_patch_conflict env contact_id contact_in st old new_email :
  is_int64 contact_id ->
  row contact_id st = Some old ->
  ContactUpdate.email contact_in = Some new_email ->
  new_email <> Contact.email old ->
  filter (where_email new_email) st <> [] ->
  run (update_contact_patch env contact_id contact_in) st =
    (Raise (HTTPException HTTP_409_CONFLICT
              ("Email " +:+ str new_email +:+
               " is already in use by another contact.")),
     mkWorld st st [CheckEmail new_email]).
Proof.
  intros Hkey Hrow Hset Hne Hheld.
  unfold run, at_rest, update_contact_patch, get_db; simpl.
  rewrite select_by_id by done; simpl. unfold row in Hrow. rewrite Hrow.
  rewrite lookup_email_model_dump, Hset.
  rewrite decide_True by done.
  rewrite bind_bind, bind_check; simpl.
  by destruct (filter (where_email _) st).
Qed.

(** PATCH to an email that no row holds: verified once; the driver may
    refuse the score; then the table may refuse a null; else the row is
    written with the new score as the column keeps it. *)
Lemma update_contact_patch_changed env contact_id contact_in st old new_email v :
  is_int64 contact_id ->
  row contact_id st = Some old ->
  ContactUpdate.email contact_in = Some new_email ->
  new_email <> Contact.email old ->
  filter (where_email new_email) st = [] ->
  verification_of env new_email = Return v ->
  run (update_contact_patch env contact_id contact_in) st =
    match write_score (numeric_affinity env) (Some (Contact.hunter_score old))
            (score v) with
    | Raise e =>
        (Raise e, mkWorld st st (CheckEmail new_email :: verification_trace env new_email))
    | Return stored_score =>
        let new := overwritten old contact_in stored_score in
        if not_null_ok new
        then (Return new,
              mkWorld (replaced new st) (replaced new st)
                (CheckEmail new_email :: verification_trace env new_email))
        else (Raise (IntegrityError "NOT NULL constraint failed"),
              mkWorld st st (CheckEmail new_email :: verification_trace env new_email))
    end.
Proof.
  intros Hkey Hrow Hset Hne Hfree Hv.
  destruct (row_Some _ _ _ Hrow) as [Hin Hid].
  unfold run, at_rest, update_contact_patch, get_db; simpl.
  rewrite select_by_id by done; simpl. pose proof Hrow as Hrow'.
  unfold row in Hrow'. rewrite Hrow'.
  rewrite lookup_email_model_dump, Hset.
  rewrite decide_True by done.
  rewrite bind_bind, bind_check; simpl. rewrite Hfree; simpl.
  rewrite bind_bind.
  match goal with
  | |- context [bind (verify_email_hunter env new_email) ?k ?w] =>
      destruct (bind_verify env new_email k w) as (v' & Hv' & ->)
  end.
  assert (v' = v) as -> by congruence. simpl.
  rewrite bind_ret, setattr_model_dump_score.
  set (new := overwritten old contact_in (score v)).
  rewrite (write_back _ st contact_id old new) by
    (try done; apply (no_holder_not_taken new_email); try done;
     subst new; simpl; by rewrite Hset).
  change (Contact.hunter_score new) with (score v).
  destruct (write_score _ _ _) as [stored_score | e]; [ | done ].
  change (not_null_ok new)
    with (not_null_ok (overwritten old contact_in stored_score)).
  by destruct (not_null_ok _).
Qed.

(** DELETE: an id that does not fit 64 bits is refused by the driver; else
    404 and nothing removed when no row has the key; else every row with
    the key goes. *)
Lemma delete_contact_run contact_id st :
  run (delete_contact contact_id) st =
    if decide (is_int64 contact_id) then
      if decide (filter (where_id contact_id) st = [])
      then (Raise (HTTPException HTTP_404_NOT_FOUND "Contact not found"), mkWorld st st [])
      else (Return "Contact deleted",
            mkWorld (filter (fun r => ~ where_id contact_id r) st)
                    (filter (fun r => ~ where_id contact_id r) st) [])
    else (Raise (PyError "OverflowError"), mkWorld st st []).
Proof.
  unfold run, at_rest, delete_contact, get_db, execute_delete.
  rewrite bind_key. unfold_monad; simpl.
  destruct (decide (is_int64 contact_id)); simpl; [ | done ].
  destruct (filter (where_id contact_id) st) as [| r l] eqn:Hf; simpl;
    repeat case_decide; try done; lia.
Qed.

Lemma read_contact_run contact_id st :
  run (read_contact contact_id) st =
    if decide (is_int64 contact_id) then
      match row contact_id st with
      | Some contact => (Return contact, mkWorld st st [])
      | None => (Raise (HTTPException HTTP_404_NOT_FOUND "Contact not found"),
                 mkWorld st st [])
      end
    else (Raise (PyError "OverflowError"), mkWorld st st []).
Proof.
  unfold run, at_rest, read_contact, get_db, row; simpl.
  destruct (decide (is_int64 contact_id)) as [Hkey | Hkey].
  - rewrite select_by_id by done; simpl. by destruct (first _).
  - rewrite (bind_select_refused _ _ _ _ (PyError "OverflowError")); [done |].
    rewrite bind_key. by rewrite decide_False.
Qed.

Lemma read_contacts_run skip limit st :
  run (read_contacts skip limit) st =
    if decide (is_int64 limit /\ is_int64 skip)
    then (Return (sql_limit limit (sql_offset skip (order_by_id st))), mkWorld st st [])
    else (Raise (PyError "OverflowError"), mkWorld st st []).
Proof.
  unfold run, at_rest, read_contacts, get_db. unfold_monad. simpl.
  destruct (decide (is_int64 limit)), (decide (is_int64 skip)); simpl;
    case_decide; try tauto; done.
Qed.

(** ** Listing *)

#[local] Instance id_le_total : Total id_le.
Proof.
  intros a b. unfold id_le.
  destruct (Contact.id a), (Contact.id b); try tauto. lia.
Qed.

#[local] Instance id_le_trans : Transitive id_le.
Proof.
  intros a b c. unfold id_le.
  destruct (Contact.id a), (Contact.id b), (Contact.id c); try tauto. lia.
Qed.

Lemma ascending_order_by_id st : ascending (order_by_id st).
Proof. apply StronglySorted_merge_sort; apply _. Qed.

Lemma ascending_offset n l : ascending l -> ascending (sql_offset n l).
Proof.
  unfold ascending, sql_offset. intros Hl.
  rewrite <- (take_drop (Z.to_nat n) l) in Hl.
  by apply StronglySorted_app in Hl as (_ & _ & Hdrop).
Qed.

Lemma ascending_limit n l : ascending l -> ascending (sql_limit n l).
Proof.
  unfold ascending, sql_limit. intros Hl. destruct (decide _); [done |].
  rewrite <- (take_drop (Z.to_nat n) l) in Hl.
  by apply StronglySorted_app in Hl as (_ & Htake & _).
Qed.

Lemma is_slice_limit_offset sorted skip limit :
  (0 <= skip)%Z -> (0 <= limit)%Z ->
  is_slice sorted skip limit (sql_limit limit (sql_offset skip sorted)).
Proof.
  intros Hskip Hlimit k. unfold sql_limit, sql_offset, at_position.
  rewrite decide_False by lia.
  destruct (decide (Z.of_nat k < limit)%Z) as [Hk | Hk].
  - rewrite lookup_take_lt by lia. rewrite lookup_drop.
    rewrite decide_True by lia. f_equal. lia.
  - apply lookup_take_ge. lia.
Qed.

(** C8 (as amended).  For every table and every [skip >= 0] and
    [limit >= 0] that fit a signed 64-bit integer, [read_contacts] returns
    the contiguous slice, positions [skip] through [skip + limit - 1], of the
    stored contacts sorted by id ascending; for every [skip] and [limit]
    that fit, negative ones included, it returns, writes nothing, and what it
    returns is sorted by id ascending.  When [skip] or [limit] does not fit,
    the driver refuses it and the handler raises OverflowError, nothing
    written. *)
Theorem read_contacts_slice st skip limit :
  (is_int64 skip -> is_int64 limit ->
   exists result,
     run (read_contacts skip limit) st = (Return result, at_rest st) /\
     order_by_id st ≡ₚ st /\
     ascending (order_by_id st) /\
     ascending result /\
     ((0 <= skip)%Z -> (0 <= limit)%Z -> is_slice (order_by_id st) skip limit result)) /\
  (~ (is_int64 skip /\ is_int64 limit) ->
   run (read_contacts skip limit) st = (Raise (PyError "OverflowError"), at_rest st)).
Proof.
  split.
  - intros Hskip Hlimit.
    exists (sql_limit limit (sql_offset skip (order_by_id st))).
    split; [rewrite read_contacts_run; by rewrite decide_True |].
    split; [apply merge_sort_Permutation |].
    split; [apply ascending_order_by_id |].
    split; [apply ascending_limit, ascending_offset, ascending_order_by_id |].
    apply is_slice_limit_offset.
  - intros Hout. rewrite read_contacts_run. rewrite decide_False; [done | tauto].
Qed.

Lemma read_contacts_slice_witness :
  exists result,
    run (read_contacts 1 1) seeded = (Return result, at_rest seeded) /\
    is_slice (order_by_id seeded) 1 1 result.
Proof.
  destruct (proj1 (read_contacts_slice seeded 1 1) ltac:(unfold is_int64; lia)
              ltac:(unfold is_int64; lia))
    as (result & Hrun & _ & _ & _ & Hslice).
  exists result. split; [exact Hrun |]. apply Hslice; lia.
Defined.

(** C8 as stated fails: with [limit = -1] the store applies no limit, so on
    the seeded table the listing holds both rows, where the slice of the
    positions 0 through -2 holds none. *)
Lemma read_contacts_negative_limit :
  exists result,
    fst (run (read_contacts 0 (-1)) seeded) = Return result /\
    length result = 2 /\
    ~ is_slice (order_by_id seeded) 0 (-1) result.
Proof.
  eexists. split; [vm_compute; reflexivity |]. split; [reflexivity |].
  intros Hslice. specialize (Hslice 0). vm_compute in Hslice. discriminate.
Qed.

(** ** Deleting *)

Lemma row_filter_nil i st : row i st = None <-> filter (where_id i) st = [].
Proof. unfold row, first. apply head_None. Qed.

Lemma row_after_delete i j st :
  row j (filter (fun r => ~ where_id i r) st) =
    if decide (j = i) then None else row j st.
Proof.
  unfold row. rewrite list_filter_filter. destruct (decide (j = i)) as [-> | Hne].
  - replace (filter _ st) with (@nil Contact.t); [done |].
    symmetry. induction st as [| r st IH]; [done |].
    rewrite filter_cons_False; [done | tauto].
  - f_equal. apply list_filter_iff. intros r. unfold where_id. split; [tauto |].
    intros Hr. split; [done |]. rewrite Hr. congruence.
Qed.

(** C7 (as amended).  For an id that fits a signed 64-bit integer: deleting
    it when no row has it fails with 404 and leaves the table as it was;
    deleting it when some row has it returns the success message, leaves no
    row with that id and every other row in place; deleting the same id
    again then fails with 404.  For an id that does not fit, which no row
    has, the driver refuses it and the handler raises OverflowError, the
    table left as it was. *)
Theorem delete_contact_semantics contact_id st :
  (is_int64 contact_id ->
   (row contact_id st = None ->
      run (delete_contact contact_id) st =
        (Raise (HTTPException HTTP_404_NOT_FOUND "Contact not found"), at_rest st)) /\
   (forall old, row contact_id st = Some old ->
      exists st',
        run (delete_contact contact_id) st = (Return "Contact deleted", at_rest st') /\
        (forall r, r ∈ st' <-> r ∈ st /\ Contact.id r <> Some contact_id) /\
        row contact_id st' = None /\
        (forall j, j <> contact_id -> row j st' = row j st) /\
        run (delete_contact contact_id) st' =
          (Raise (HTTPException HTTP_404_NOT_FOUND "Contact not found"), at_rest st'))) /\
  (~ is_int64 contact_id ->
   run (delete_contact contact_id) st = (Raise (PyError "OverflowError"), at_rest st)).
Proof.
  split; [ | intros Hkey; rewrite delete_contact_run; by rewrite decide_False ].
  intros Hkey. split.
  - intros Hnone%row_filter_nil. rewrite delete_contact_run.
    rewrite decide_True by done. by rewrite decide_True.
  - intros old Hold.
    assert (Hsome : filter (where_id contact_id) st <> []).
    { intros Hnil%row_filter_nil. congruence. }
    exists (filter (fun r => ~ where_id contact_id r) st).
    assert (Hgone : row contact_id (filter (fun r => ~ where_id contact_id r) st) = None).
    { rewrite row_after_delete. by rewrite decide_True. }
    split; [rewrite delete_contact_run, decide_True by done; by rewrite decide_False |].
    split; [intros r; rewrite list_elem_of_filter; unfold where_id; tauto |].
    split; [done |].
    split; [intros j Hj; rewrite row_after_delete; by rewrite decide_False |].
    rewrite delete_contact_run, decide_True by done. rewrite decide_True; [done |].
    by apply row_filter_nil.
Qed.

Lemma delete_contact_semantics_witness :
  run (delete_contact 7) seeded =
    (Raise (HTTPException HTTP_404_NOT_FOUND "Contact not found"), at_rest seeded) /\
  exists st',
    run (delete_contact 2) seeded = (Return "Contact deleted", at_rest st') /\
    run (delete_contact 2) st' =
      (Raise (HTTPException HTTP_404_NOT_FOUND "Contact not found"), at_rest st').
Proof.
  split.
  - apply (proj1 (proj1 (delete_contact_semantics 7 seeded) ltac:(unfold is_int64; lia))).
    reflexivity.
  - destruct (proj2 (proj1 (delete_contact_semantics 2 seeded) ltac:(unfold is_int64; lia))
                (Contact.Contact (Some 2%Z) (Some "Bob") (Some "Johnson")
                   (Some "bob.j@test.org") None (PInt 45)))
      as (st' & Hfirst & _ & _ & _ & Hsecond); [reflexivity |].
    exists st'. by split.
Defined.

(** C7 as stated fails: no row of the seeded table has the id 2^63, yet
    deleting it does not answer 404; the driver refuses the id with an
    [OverflowError]. *)
Lemma delete_contact_beyond_int64 :
  row (2 ^ 63) seeded = None /\
  run (delete_contact (2 ^ 63)) seeded = (Raise (PyError "OverflowError"), at_rest seeded).
Proof. split; vm_compute; reflexivity. Qed.

(** ** The verification client: the claims *)

Lemma no_external_call_mocked env email :
  ~ configured env -> no_external_call (verification_trace env email).
Proof.
  intros Hno url. rewrite verification_trace_mocked by done.
  intros Hin%list_elem_of_singleton. discriminate.
Qed.

(** C5.  With no credential configured (the key unset, empty, or the
    stand-in), verification of any email returns score 50 with status
    "mocked_key", sends nothing to the remote service and writes nothing; any
    two runs, on any two emails in any two worlds, return the same pair. *)
Theorem verify_email_hunter_mocked env :
  ~ configured env ->
  (forall email w,
     verify_email_hunter env email w =
       (Return (mkVerification (PInt 50) "mocked_key"),
        mkWorld (committed w) (session w) (trace w ++ [CallVerify email]))) /\
  (forall email, no_external_call (verification_trace env email)) /\
  (forall email1 email2 w1 w2,
     fst (verify_email_hunter env email1 w1) = fst (verify_email_hunter env email2 w2)).
Proof.
  intros Hno.
  assert (Hrun : forall email w,
     verify_email_hunter env email w =
       (Return (mkVerification (PInt 50) "mocked_key"),
        mkWorld (committed w) (session w) (trace w ++ [CallVerify email]))).
  { intros email w.
    destruct (verify_email_hunter_run env email w) as (v & Hv & ->).
    rewrite verification_of_mocked in Hv by done. injection Hv as <-.
    by rewrite verification_trace_mocked. }
  split; [exact Hrun |].
  split; [intros email; by apply no_external_call_mocked |].
  intros email1 email2 w1 w2. by rewrite !Hrun.
Qed.

Lemma verify_email_hunter_mocked_witness :
  fst (verify_email_hunter
         (mkEnv None (fun _ => Raise (RequestError "ConnectError")) (fun _ => None) (fun v => v))
         (Some "alice@example.com") (at_rest []))
  = Return (mkVerification (PInt 50) "mocked_key").
Proof.
  set (env := mkEnv None (fun _ => Raise (RequestError "ConnectError")) (fun _ => None) (fun v => v)).
  assert (Hno : ~ configured env).
  { intros [_ Hstandin]. apply Hstandin. reflexivity. }
  rewrite (proj1 (verify_email_hunter_mocked env Hno)). reflexivity.
Defined.

(** C6 (as amended).  With a credential configured and a 2xx response whose
    body is a JSON object with an object under "data", verification returns
    status "verified" with the value under "score" of that object, or 50
    when it has no "score"; a 2xx response with any other body gives 48 with
    status "unexpected_error". *)
Theorem verify_email_hunter_verified env email response :
  configured env ->
  client_get env (hunter_url env email) = Return response ->
  raise_for_status response = Return tt ->
  (forall items inner,
     content response = Some (PDict items) ->
     dict_lookup "data" items = Some (PDict inner) ->
     verification_of env email =
       Return (mkVerification (default (PInt 50) (dict_lookup "score" inner)) "verified")) /\
  ((forall items inner,
      content response = Some (PDict items) ->
      dict_lookup "data" items <> Some (PDict inner)) ->
   verification_of env email = Return (mkVerification (PInt 48) "unexpected_error")).
Proof.
  intros Hconf Hget Hstatus.
  rewrite (verification_of_configured env email Hconf), Hget, Hstatus.
  unfold json. split.
  - intros items inner -> Hdata. simpl. by rewrite Hdata.
  - intros Hbody. destruct (content response) as [data |]; simpl; [ | done ].
    destruct data; simpl; try done.
    destruct (dict_lookup "data" items) as [inner |] eqn:Hdata; simpl; [ | done ].
    destruct inner; simpl; try done.
    exfalso. by eapply Hbody.
Qed.

Lemma verify_email_hunter_verified_witness :
  verification_of
    (mkEnv (Some "key")
       (fun _ => Return (mkResponse 200
                  (Some (PDict [("data", PDict [("status", PStr "valid")])]))))
       (fun _ => None) (fun v => v))
    (Some "alice@example.com")
  = Return (mkVerification (PInt 50) "verified").
Proof.
  set (response := mkResponse 200
         (Some (PDict [("data", PDict [("status", PStr "valid")])]))).
  set (env := mkEnv (Some "key") (fun _ => Return response) (fun _ => None) (fun v => v)).
  assert (Hconf : configured env) by (split; discriminate).
  apply (proj1 (verify_email_hunter_verified env (Some "alice@example.com") response
                  Hconf eq_refl eq_refl)
           [("data", PDict [("status", PStr "valid")])] [("status", PStr "valid")]);
    reflexivity.
Defined.

(** C6 as stated fails: a credential is configured, the call returns 200,
    the body [{}] has no score field, and the client answers 48 with status
    "unexpected_error" where the claim has 50 with "verified". *)
Lemma verify_email_hunter_success_without_data :
  let response := mkResponse 200 (Some (PDict [])) in
  let env := mkEnv (Some "key") (fun _ => Return response) (fun _ => None) (fun v => v) in
  configured env /\
  client_get env (hunter_url env (Some "alice@example.com")) = Return response /\
  raise_for_status response = Return tt /\
  verification_of env (Some "alice@example.com")
    = Return (mkVerification (PInt 48) "unexpected_error") /\
  status (mkVerification (PInt 48) "unexpected_error") <> "verified".
Proof.
  repeat split; try discriminate.
Qed.

(** ** Rows before and after a write *)

Lemma run_discard {A} (m : M A) st : snd (run (discard m) st) = snd (run m st).
Proof.
  unfold run, discard, bind, ret. by destruct (m (at_rest st)) as [[a | e] w].
Qed.

Lemma row_replaced i new st :
  Contact.id new = Some i -> Some i ∈ Contact.id <$> st ->
  row i (replaced new st) = Some new.
Proof.
  intros Hid Hin. unfold row.
  rewrite <- (first_replaced new st) by (by rewrite Hid).
  f_equal. apply list_filter_iff. intros r. unfold where_id. by rewrite Hid.
Qed.

Lemma store_ok_row i st old :
  store_ok st -> row i st = Some old -> not_null_ok old = true.
Proof.
  intros (Hall & _ & _) [Hin _]%row_Some.
  rewrite Forall_forall in Hall. destruct (Hall old Hin) as [_ Hnn].
  by apply Is_true_true.
Qed.

Lemma not_null_ok_email c : not_null_ok c = true -> Contact.email c <> None.
Proof.
  unfold not_null_ok. rewrite !andb_true_iff. intros [_ Hemail].
  by apply bool_decide_eq_true in Hemail.
Qed.

Lemma not_null_overwritten_ok old contact_in s :
  not_null_ok old = true ->
  ContactUpdate.first_name contact_in <> Some None ->
  ContactUpdate.last_name contact_in <> Some None ->
  ContactUpdate.email contact_in <> Some None ->
  not_null_ok (overwritten old contact_in s) = true.
Proof.
  unfold not_null_ok, overwritten. rewrite !andb_true_iff. simpl.
  intros [[Hfn Hln] Hem] Hfn' Hln' Hem'.
  apply bool_decide_eq_true in Hfn, Hln, Hem.
  repeat split; apply bool_decide_eq_true.
  - destruct (ContactUpdate.first_name contact_in) as [[v |] |]; simpl; congruence.
  - destruct (ContactUpdate.last_name contact_in) as [[v |] |]; simpl; congruence.
  - destruct (ContactUpdate.email contact_in) as [[v |] |]; simpl; congruence.
Qed.

Lemma holders_elem_of e st r :
  r ∈ st -> Contact.email r = Some e -> holders e st <> [].
Proof.
  intros Hin Hr Hnone.
  by eapply (filter_nil_not_elem_of (where_email (Some e))).
Qed.

Lemma fallback_score v : fallback v -> exists n, score v = PInt n /\ is_int64 n.
Proof.
  intros [-> | [-> | ->]]; eexists; (split; [reflexivity | unfold is_int64; lia]).
Qed.

Lemma bind_integer_int text_or_real n :
  is_int64 n -> bind_integer text_or_real (PInt n) = Return (PInt n).
Proof. intros Hn. unfold bind_integer. simpl. by rewrite decide_True. Qed.

Lemma write_score_int text_or_real loaded n :
  is_int64 n -> write_score text_or_real loaded (PInt n) = Return (PInt n).
Proof.
  intros Hn. unfold write_score. destruct (decide _); [done |].
  by apply bind_integer_int.
Qed.

Lemma not_null_all_fields old contact_in s :
  not_null_ok (overwritten old (all_fields contact_in) s) = true.
Proof. reflexivity. Qed.

(** C2.  [verify_email_hunter] returns a score and a status for every email
    and whatever the remote call does, and raises nothing; with a credential
    configured, an HTTP error status gives 40, a network failure 45, any
    other exception 48.  A write whose verification failed goes through with
    that score: on a table that meets its constraints, a create of a free
    email (the table having a key left), a PUT to a free email and a PATCH
    to a free email that sets no name to null return the record with the
    fallback score and store it. *)
Theorem verify_email_hunter_total :
  (forall env email w,
     exists v w',
       verify_email_hunter env email w = (Return v, w') /\
       committed w' = committed w /\ session w' = session w) /\
  (forall env email,
     configured env ->
     (forall response,
        client_get env (hunter_url env email) = Return response ->
        raise_for_status response = Raise HTTPStatusError ->
        verification_of env email = Return (mkVerification (PInt 40) "api_error")) /\
     (forall kind,
        client_get env (hunter_url env email) = Raise (RequestError kind) ->
        verification_of env email = Return (mkVerification (PInt 45) "network_error")) /\
     (forall e,
        client_get env (hunter_url env email) = Raise e ->
        e <> HTTPStatusError -> (forall kind, e <> RequestError kind) ->
        verification_of env email =
          Return (mkVerification (PInt 48) "unexpected_error"))) /\
  (forall env st v,
     store_ok st ->
     fallback v ->
     (forall contact_in,
        verification_of env (Some (ContactCreate.email contact_in)) = Return v ->
        holders (ContactCreate.email contact_in) st = [] ->
        is_int64 (next_id st) ->
        exists new tr,
          run (create_contact env contact_in) st =
            (Return new, mkWorld (st ++ [new]) (st ++ [new]) tr) /\
          Contact.hunter_score new = score v) /\
     (forall contact_id contact_in old,
        verification_of env (Some (ContactCreate.email contact_in)) = Return v ->
        row contact_id st = Some old ->
        Contact.email old <> Some (ContactCreate.email contact_in) ->
        holders (ContactCreate.email contact_in) st = [] ->
        exists new tr,
          run (update_contact_put env contact_id contact_in) st =
            (Return new, mkWorld (replaced new st) (replaced new st) tr) /\
          Contact.hunter_score new = score v) /\
     (forall contact_id contact_in old new_email,
        verification_of env (Some new_email) = Return v ->
        row contact_id st = Some old ->
        ContactUpdate.email contact_in = Some (Some new_email) ->
        Contact.email old <> Some new_email ->
        holders new_email st = [] ->
        ContactUpdate.first_name contact_in <> Some None ->
        ContactUpdate.last_name contact_in <> Some None ->
        exists new tr,
          run (update_contact_patch env contact_id contact_in) st =
            (Return new, mkWorld (replaced new st) (replaced new st) tr) /\
          Contact.hunter_score new = score v)).
Proof.
  split; [ | split ].
  - intros env email w.
    destruct (verify_email_hunter_run env email w) as (v & _ & ->).
    by eexists _, _.
  - intros env email Hconf.
    rewrite (verification_of_configured env email Hconf).
    split; [ | split ].
    + by intros response -> ->.
    + by intros kind ->.
    + intros e -> Hstatus Hrequest. destruct e; try done. by destruct (Hrequest kind).
  - intros env st v Hok (n & Hn & Hrange)%fallback_score.
    split; [ | split ].
    + intros contact_in Hv Hfree Hkey.
      rewrite (create_contact_fresh env contact_in st v Hfree Hv).
      rewrite Hn, bind_integer_int by done. simpl. rewrite decide_True by done.
      by eexists _, _.
    + intros contact_id contact_in old Hv Hrow Hdiff Hfree.
      rewrite (update_contact_put_changed env contact_id contact_in st old v);
        [ | by eapply row_key | done | done | done | done ].
      rewrite Hn, write_score_int by done. by eexists _, _.
    + intros contact_id contact_in old new_email Hv Hrow Hset Hdiff Hfree Hfn Hln.
      rewrite (update_contact_patch_changed env contact_id contact_in st old
                 (Some new_email) v);
        [ | by eapply row_key | done | done | congruence | done | done ].
      rewrite Hn, write_score_int by done. simpl.
      rewrite not_null_overwritten_ok; [by eexists _, _ | | done | done | by rewrite Hset].
      by eapply store_ok_row.
Qed.

Lemma verify_email_hunter_total_witness :
  let env := mkEnv (Some "key") (fun _ => Raise (RequestError "ConnectTimeout"))
               (fun _ => None) (fun v => v) in
  verification_of env (Some "alice@example.com")
    = Return (mkVerification (PInt 45) "network_error") /\
  exists new tr,
    run (create_contact env
           (ContactCreate.ContactCreate "Carol" "Diaz" "carol@example.com" None))
        seeded
      = (Return new, mkWorld (seeded ++ [new]) (seeded ++ [new]) tr) /\
    Contact.hunter_score new = PInt 45.
Proof.
  intros env. split.
  - assert (Hconf : configured env) by (split; discriminate).
    apply (proj1 (proj2 (proj1 (proj2 verify_email_hunter_total)
                           env (Some "alice@example.com") Hconf))
             "ConnectTimeout").
    reflexivity.
  - apply (proj1 (proj2 (proj2 verify_email_hunter_total) env seeded
                    (mkVerification (PInt 45) "network_error")
                    (reachable_ok _ (reachable_step _ Startup [] reachable_empty))
                    ltac:(right; left; reflexivity))
             (ContactCreate.ContactCreate "Carol" "Diaz" "carol@example.com" None));
      [ reflexivity | reflexivity | vm_compute; split; discriminate ].
Defined.

(** ** How a write can end *)

Lemma same_key_same_row {B} (f : Contact.t -> B) st r1 r2 :
  NoDup (f <$> st) -> r1 ∈ st -> r2 ∈ st -> f r1 = f r2 -> r1 = r2.
Proof.
  intros Hnodup Hin1 Hin2 Heq.
  induction st as [| r st IH]; [by apply elem_of_nil in Hin1 |].
  rewrite fmap_cons in Hnodup. apply NoDup_cons in Hnodup as [Hnotin Hnodup].
  apply elem_of_cons in Hin1 as [-> | Hin1]; apply elem_of_cons in Hin2 as [-> | Hin2].
  - done.
  - exfalso. apply Hnotin. rewrite Heq. by apply list_elem_of_fmap_2.
  - exfalso. apply Hnotin. rewrite <- Heq. by apply list_elem_of_fmap_2.
  - by apply IH.
Qed.

(** Writing a row back as it is changes nothing. *)
Lemma replaced_self st old :
  NoDup (Contact.id <$> st) -> old ∈ st -> replaced old st = st.
Proof.
  intros Hids Hin. unfold replaced.
  rewrite <- (list_fmap_id st) at 2. apply list_fmap_ext.
  intros k r Hr. destruct (decide _) as [Heq | _]; [ | done ].
  change (old = r). symmetry.
  apply (same_key_same_row Contact.id st); [done | | done | done].
  by eapply list_elem_of_lookup_2.
Qed.

Lemma row_replaced_other i j new st :
  Contact.id new = Some i -> j <> i -> row j (replaced new st) = row j st.
Proof.
  intros Hid Hne. unfold row, replaced. f_equal.
  induction st as [| r st IH]; [done |]. simpl.
  destruct (decide (Contact.id r = Contact.id new)) as [Heq | Hneq].
  - rewrite !filter_cons, IH.
    rewrite !decide_False; [done | |]; unfold where_id; congruence.
  - rewrite !filter_cons, IH. done.
Qed.



Lemma row_in_ids i st old : row i st = Some old -> Some i ∈ Contact.id <$> st.
Proof. intros [Hin <-]%row_Some. by apply list_elem_of_fmap_2. Qed.


Lemma bind_integer_Return text_or_real v s :
  bind_integer text_or_real v = Return s -> s = integer_column text_or_real v.
Proof.
  unfold bind_integer. destruct (bind_parameter v); simpl; [ | discriminate ].
  by intros [= <-].
Qed.


Lemma write_score_Return text_or_real stored v s :
  write_score text_or_real (Some stored) v = Return s ->
  s = stored \/ s = integer_column text_or_real v.
Proof.
  unfold write_score. destruct (decide _) as [[= ->] | _].
  - intros [= <-]. by left.
  - intros Hs%bind_integer_Return. by right.
Qed.


(** A create that returns found the email free and a key left, and appended
    the row under the next key, its score the verification's as the column
    keeps it. *)
Lemma create_contact_success env contact_in st new w :
  run (create_contact env contact_in) st = (Return new, w) ->
  holders (ContactCreate.email contact_in) st = [] /\
  committed w = st ++ [new] /\
  Contact.id new = Some (next_id st) /\
  is_int64 (next_id st) /\
  Contact.email new = Some (ContactCreate.email contact_in) /\
  exists v,
    verification_of env (Some (ContactCreate.email contact_in)) = Return v /\
    Contact.hunter_score new = integer_column (numeric_affinity env) (score v).
Proof.
  intros Hrun.
  destruct (decide (holders (ContactCreate.email contact_in) st = [])) as [Hfree | Hheld];
    [ | by rewrite create_contact_conflict in Hrun ].
  destruct (verify_email_hunter_run env (Some (ContactCreate.email contact_in))
              (at_rest st)) as (v & Hv & _).
  rewrite (create_contact_fresh env contact_in st v Hfree Hv) in Hrun.
  destruct (bind_integer _ _) as [stored_score | e] eqn:Hbind; [ | done ].
  simpl in Hrun. destruct (decide (is_int64 (next_id st))) as [Hkey | Hkey]; [ | done ].
  injection Hrun as <- <-. simpl.
  split; [done |]. split; [done |]. split; [done |]. split; [done |]. split; [done |].
  exists v. split; [done |]. by apply bind_integer_Return in Hbind.
Qed.


(** A PUT that returns, on a table that meets its constraints, replaced the
    row of the id by the body's fields; the score is the one the row had or
    the verification's as the column keeps it. *)
Lemma update_contact_put_success env contact_id contact_in st new w :
  store_ok st ->
  run (update_contact_put env contact_id contact_in) st = (Return new, w) ->
  exists old,
    row contact_id st = Some old /\
    committed w = replaced new st /\
    new = overwritten old (all_fields contact_in) (Contact.hunter_score new) /\
    (Contact.hunter_score new = Contact.hunter_score old \/
     exists v,
       verification_of env (Some (ContactCreate.email contact_in)) = Return v /\
       Contact.hunter_score new = integer_column (numeric_affinity env) (score v)).
Proof.
  intros Hok Hrun.
  destruct (decide (is_int64 contact_id)) as [Hkey | Hkey];
    [ | by rewrite update_contact_put_overflow in Hrun ].
  destruct (row contact_id st) as [old |] eqn:Hrow;
    [ | by rewrite update_contact_put_not_found in Hrun ].
  exists old. split; [done |].
  destruct (decide (Contact.email old = Some (ContactCreate.email contact_in)))
    as [Hsame | Hdiff].
  { rewrite (update_contact_put_keep env contact_id contact_in st old) in Hrun by done.
    injection Hrun as <- <-. simpl. repeat split; try done. by left. }
  destruct (decide (holders (ContactCreate.email contact_in) st = [])) as [Hfree | Hheld];
    [ | by rewrite (update_contact_put_conflict env _ _ _ old) in Hrun ].
  destruct (verify_email_hunter_run env (Some (ContactCreate.email contact_in))
              (at_rest st)) as (v & Hv & _).
  rewrite (update_contact_put_changed env contact_id contact_in st old v) in Hrun by done.
  destruct (write_score _ _ _) as [stored_score | e] eqn:Hscore; [ | done ].
  injection Hrun as <- <-. simpl. repeat split; try done.
  apply write_score_Return in Hscore as [-> | ->]; [by left | right; by exists v].
Qed.



(** A PATCH that returns, on a table that meets its constraints, replaced
    the row of the id by the row with the set fields put over it; the score
    is the one the row had or the verification's as the column keeps it. *)
Lemma update_contact_patch_success env contact_id contact_in st new w :
  store_ok st ->
  run (update_contact_patch env contact_id contact_in) st = (Return new, w) ->
  exists old,
    row contact_id st = Some old /\
    committed w = replaced new st /\
    new = overwritten old contact_in (Contact.hunter_score new) /\
    (Contact.hunter_score new = Contact.hunter_score old \/
     exists new_email v,
       ContactUpdate.email contact_in = Some new_email /\
       verification_of env new_email = Return v /\
       Contact.hunter_score new = integer_column (numeric_affinity env) (score v)).
Proof.
  intros Hok Hrun.
  destruct (decide (is_int64 contact_id)) as [Hkey | Hkey];
    [ | by rewrite update_contact_patch_overflow in Hrun ].
  destruct (row contact_id st) as [old |] eqn:Hrow;
    [ | by rewrite update_contact_patch_not_found in Hrun ].
  exists old. split; [done |].
  assert (Hkeep :
    ContactUpdate.email contact_in = None \/
      ContactUpdate.email contact_in = Some (Contact.email old) ->
    committed w = replaced new st /\
    new = overwritten old contact_in (Contact.hunter_score new) /\
    Contact.hunter_score new = Contact.hunter_score old).
  { intros Hemail.
    rewrite (update_contact_patch_keep env contact_id contact_in st old) in Hrun by done.
    destruct (not_null_ok _); [ | done ]. by injection Hrun as <- <-. }
  destruct (ContactUpdate.email contact_in) as [new_email |] eqn:Hset;
    [ | destruct Hkeep as (? & ? & ?); auto ].
  destruct (decide (new_email = Contact.email old)) as [-> | Hdiff];
    [ destruct Hkeep as (? & ? & ?); auto | ].
  destruct (decide (filter (where_email new_email) st = [])) as [Hfree | Hheld];
    [ | by rewrite (update_contact_patch_conflict env _ _ _ old new_email) in Hrun ].
  destruct (verify_email_hunter_run env new_email (at_rest st)) as (v & Hv & _).
  rewrite (update_contact_patch_changed env contact_id contact_in st old new_email v)
    in Hrun by done.
  destruct (write_score _ _ _) as [stored_score | e] eqn:Hscore; [ | done ].
  simpl in Hrun. destruct (not_null_ok _); [ | done ].
  injection Hrun as <- <-. simpl. repeat split; try done.
  apply write_score_Return in Hscore as [-> | ->]; [by left | right; by exists new_email, v].
Qed.


Lemma on_startup_run st :
  run on_startup st = (Return tt, at_rest (if st is [] then seeded else st)).
Proof. by destruct st. Qed.

Lemma row_appended st new :
  Contact.id new = Some (next_id st) -> row (next_id st) (st ++ [new]) = Some new.
Proof.
  intros Hid. unfold row. rewrite filter_app.
  change (filter (where_id (next_id st)) st)
    with (filter (fun r => Contact.id r = Some (next_id st)) st).
  rewrite filter_fresh_id. simpl. by rewrite filter_cons_True.
Qed.

Lemma committed_step {A} (m : M A) env req st :
  handle env req = discard m -> committed (snd (run m st)) = step env req st.
Proof. intros Hreq. unfold step. by rewrite Hreq, run_discard. Qed.

(** ** The store: the claims *)

(** C1.  On every reachable table each email is held by at most one row;
    every request, under any environment, takes a table that meets its
    constraints to one that does.  A create whose email some row already
    holds fails with 409 and writes nothing, so that exactly one row holds
    the email afterwards; in particular a second create with the email of a
    create that succeeded. *)
Theorem email_uniqueness_invariant :
  (forall st, reachable st -> emails_unique st) /\
  (forall env req st,
     store_ok st -> store_ok (step env req st) /\ emails_unique (step env req st)) /\
  (forall env contact_in st,
     emails_unique st ->
     holders (ContactCreate.email contact_in) st <> [] ->
     exists detail tr,
       run (create_contact env contact_in) st =
         (Raise (HTTPException HTTP_409_CONFLICT detail), mkWorld st st tr) /\
       length (holders (ContactCreate.email contact_in) st) = 1) /\
  (forall env1 env2 first_in second_in st new w1,
     store_ok st ->
     run (create_contact env1 first_in) st = (Return new, w1) ->
     ContactCreate.email second_in = ContactCreate.email first_in ->
     exists detail tr,
       run (create_contact env2 second_in) (committed w1) =
         (Raise (HTTPException HTTP_409_CONFLICT detail),
          mkWorld (committed w1) (committed w1) tr) /\
       holders (ContactCreate.email first_in) (committed w1) = [new]).
Proof.
  split; [ | split; [ | split ] ].
  - intros st Hst. by apply store_ok_unique, reachable_ok.
  - intros env req st Hok.
    pose proof (step_ok env req st Hok). split; [done | by apply store_ok_unique].
  - intros env contact_in st Huniq Hheld.
    eexists _, _. split; [by apply create_contact_conflict |].
    specialize (Huniq (ContactCreate.email contact_in)).
    destruct (holders _ st) as [| r l]; [done |]. simpl in *. lia.
  - intros env1 env2 first_in second_in st new w1 Hok Hrun Hsame.
    destruct (create_contact_success _ _ _ _ _ Hrun)
      as (Hfree & Hw & Hid & _ & Hemail & _).
    assert (Hnow : holders (ContactCreate.email first_in) (committed w1) = [new]).
    { rewrite Hw. unfold holders in *. rewrite filter_app, Hfree. simpl.
      by rewrite filter_cons_True. }
    eexists _, _. split; [ | exact Hnow ].
    apply create_contact_conflict. rewrite Hsame, Hnow. done.
Qed.

Lemma email_uniqueness_invariant_witness :
  emails_unique seeded /\
  exists detail tr,
    run (create_contact
           (mkEnv None (fun _ => Raise (RequestError "ConnectError")) (fun _ => None) (fun v => v))
           (ContactCreate.ContactCreate "Alicia" "Smythe" "alice@example.com" None))
        seeded
    = (Raise (HTTPException HTTP_409_CONFLICT detail), mkWorld seeded seeded tr).
Proof.
  assert (Hreach : reachable seeded) by apply reachable_step, reachable_empty.
  pose proof (proj1 email_uniqueness_invariant seeded Hreach) as Huniq.
  split; [exact Huniq |].
  destruct (proj1 (proj2 (proj2 email_uniqueness_invariant))
              (mkEnv None (fun _ => Raise (RequestError "ConnectError")) (fun _ => None) (fun v => v))
              (ContactCreate.ContactCreate "Alicia" "Smythe" "alice@example.com" None)
              seeded Huniq) as (detail & tr & Hrun & _).
  { vm_compute. discriminate. }
  by exists detail, tr.
Defined.

(** C4.  For two distinct rows [a] and [b] of a table that meets its
    constraints, a PUT or a PATCH of [a] to the email of [b] fails with 409,
    verifies nothing, and leaves the table, hence both rows, as it was. *)
Theorem update_to_held_email_conflicts env st a b ia eb :
  store_ok st ->
  a ∈ st -> b ∈ st -> a <> b ->
  Contact.id a = Some ia -> Contact.email b = Some eb ->
  (forall contact_in,
     ContactCreate.email contact_in = eb ->
     exists detail tr,
       run (update_contact_put env ia contact_in) st =
         (Raise (HTTPException HTTP_409_CONFLICT detail), mkWorld st st tr) /\
       no_verification tr) /\
  (forall contact_in,
     ContactUpdate.email contact_in = Some (Some eb) ->
     exists detail tr,
       run (update_contact_patch env ia contact_in) st =
         (Raise (HTTPException HTTP_409_CONFLICT detail), mkWorld st st tr) /\
       no_verification tr) /\
  row ia st = Some a.
Proof.
  intros Hok Ha Hb Hab Hia Heb.
  pose proof Hok as (_ & Hids & Hemails & _).
  assert (Hrow : row ia st = Some a) by (by apply row_elem_of).
  pose proof (row_key _ _ _ Hok Hrow) as Hkey.
  assert (Hdiff : Contact.email a <> Some eb).
  { intros Heq. apply Hab. apply (same_email_same_row st); congruence. }
  assert (Hheld : holders eb st <> []) by (by apply (holders_elem_of eb st b)).
  split; [ | split; [ | done ] ].
  - intros contact_in <-. eexists _, _.
    split; [by apply (update_contact_put_conflict env ia contact_in st a) |].
    intros email [Hin | Hin%elem_of_nil]%elem_of_cons; [discriminate | done].
  - intros contact_in Hset. eexists _, _.
    split; [by apply (update_contact_patch_conflict env ia contact_in st a (Some eb)) |].
    intros email [Hin | Hin%elem_of_nil]%elem_of_cons; [discriminate | done].
Qed.

Lemma update_to_held_email_conflicts_witness :
  exists detail tr,
    run (update_contact_put
           (mkEnv None (fun _ => Raise (RequestError "ConnectError")) (fun _ => None) (fun v => v)) 1
           (ContactCreate.ContactCreate "Alice" "Smith" "bob.j@test.org" None))
        seeded
    = (Raise (HTTPException HTTP_409_CONFLICT detail), mkWorld seeded seeded tr).
Proof.
  set (alice := Contact.Contact (Some 1%Z) (Some "Alice") (Some "Smith")
                  (Some "alice@example.com") (Some "555-1234") (PInt 85)).
  set (bob := Contact.Contact (Some 2%Z) (Some "Bob") (Some "Johnson")
                (Some "bob.j@test.org") None (PInt 45)).
  assert (Hok : store_ok seeded)
    by apply reachable_ok, reachable_step, reachable_empty.
  destruct (proj1 (update_to_held_email_conflicts
                     (mkEnv None (fun _ => Raise (RequestError "ConnectError"))
                        (fun _ => None) (fun v => v))
                     seeded alice bob 1%Z "bob.j@test.org" Hok
                     ltac:(vm_compute; left) ltac:(vm_compute; right; left)
                     ltac:(discriminate) eq_refl eq_refl)
              (ContactCreate.ContactCreate "Alice" "Smith" "bob.j@test.org" None)
              eq_refl) as (detail & tr & Hrun & _).
  by exists detail, tr.
Defined.

(** ** Updates that keep the email *)

Lemma no_verification_nil : no_verification [].
Proof. intros email H. by apply elem_of_nil in H. Qed.

Lemma no_conflict_check_nil : no_conflict_check [].
Proof. intros email H. by apply elem_of_nil in H. Qed.


(** X20.  For a row of a table that meets its constraints, a PUT whose
    email is the row's, and a PATCH that sets the email to the row's and
    sets neither name to null, succeed, verify nothing, leave [hunter_score]
    as it was and store the row with every supplied field overwritten (for
    the PATCH the fields not supplied stay). *)
Theorem update_same_email_keeps_score env contact_id st old :
  store_ok st ->
  row contact_id st = Some old ->
  (forall contact_in,
     Contact.email old = Some (ContactCreate.email contact_in) ->
     exists new w',
       run (update_contact_put env contact_id contact_in) st = (Return new, w') /\
       row contact_id (committed w') = Some new /\
       no_verification (trace w') /\
       Contact.hunter_score new = Contact.hunter_score old /\
       Contact.id new = Contact.id old /\
       Contact.first_name new = Some (ContactCreate.first_name contact_in) /\
       Contact.last_name new = Some (ContactCreate.last_name contact_in) /\
       Contact.email new = Some (ContactCreate.email contact_in) /\
       Contact.phone new = ContactCreate.phone contact_in) /\
  (forall contact_in,
     ContactUpdate.email contact_in = Some (Contact.email old) ->
     ContactUpdate.first_name contact_in <> Some None ->
     ContactUpdate.last_name contact_in <> Some None ->
     exists new w',
       run (update_contact_patch env contact_id contact_in) st = (Return new, w') /\
       row contact_id (committed w') = Some new /\
       no_verification (trace w') /\
       Contact.hunter_score new = Contact.hunter_score old /\
       Contact.id new = Contact.id old /\
       Contact.email new = Contact.email old /\
       Contact.first_name new =
         default (Contact.first_name old) (ContactUpdate.first_name contact_in) /\
       Contact.last_name new =
         default (Contact.last_name old) (ContactUpdate.last_name contact_in) /\
       Contact.phone new =
         default (Contact.phone old) (ContactUpdate.phone contact_in)).
Proof.
  intros Hok Hrow.
  destruct (row_Some _ _ _ Hrow) as [Hin Hid].
  pose proof (row_in_ids _ _ _ Hrow) as Hids.
  split.
  - intros contact_in Hemail.
    rewrite (update_contact_put_keep env contact_id contact_in st old) by done.
    eexists _, _. split; [reflexivity |]. simpl.
    split; [by apply row_replaced |].
    split; [apply no_verification_nil | done].
  - intros contact_in Hemail Hfn Hln.
    rewrite (update_contact_patch_keep env contact_id contact_in st old) by auto.
    rewrite not_null_overwritten_ok; try done.
    + eexists _, _. split; [reflexivity |]. simpl.
      split; [by apply row_replaced |].
      split; [apply no_verification_nil |].
      rewrite Hemail. done.
    + by eapply store_ok_row.
    + rewrite Hemail. intros [= Hnull].
      by eapply not_null_ok_email; [eapply store_ok_row |].
Qed.

Lemma update_same_email_keeps_score_witness :
  exists new w',
    run (update_contact_patch
           (mkEnv (Some "key") (fun _ => Raise (RequestError "ConnectError"))
              (fun _ => None) (fun v => v)) 1
           (ContactUpdate.ContactUpdate None None (Some (Some "alice@example.com"))
              (Some (Some "555-0000"))))
        seeded = (Return new, w') /\
    Contact.hunter_score new = PInt 85 /\
    Contact.phone new = Some "555-0000" /\
    no_verification (trace w').
Proof.
  set (alice := Contact.Contact (Some 1%Z) (Some "Alice") (Some "Smith")
                  (Some "alice@example.com") (Some "555-1234") (PInt 85)).
  assert (Hok : store_ok seeded)
    by apply reachable_ok, reachable_step, reachable_empty.
  destruct (proj2 (update_same_email_keeps_score
                     (mkEnv (Some "key") (fun _ => Raise (RequestError "ConnectError"))
                        (fun _ => None) (fun v => v))
                     1%Z seeded alice Hok eq_refl)
              (ContactUpdate.ContactUpdate None None (Some (Some "alice@example.com"))
                 (Some (Some "555-0000")))
              eq_refl ltac:(discriminate) ltac:(discriminate))
    as (new & w' & Hrun & _ & Hno & Hscore & _ & _ & _ & _ & Hphone).
  exists new, w'. by repeat split.
Defined.

(** C3.  On the seeded table,
    [PATCH /contacts/1 {"first_name": null, "email": "alice@example.com"}]
    names the email contact 1 has, so nothing is verified and the score is
    not touched; but [ContactUpdate] lets the null [first_name] through,
    [setattr] puts it on the row, and the commit is refused by the NOT NULL
    column with an IntegrityError that no handler catches.  The supplied
    field is not written: the table and the row stay as they were.  The same
    null in the body of a PUT is refused by validation before the handler
    runs. *)
Theorem patch_null_first_name_not_written :
  let env := mkEnv None (fun _ => Raise (RequestError "ConnectError")) Some (fun v => v) in
  let body := [("first_name", PNone); ("email", PStr "alice@example.com")] in
  exists old contact_in,
    row 1 seeded = Some old /\
    Contact.first_name old = Some "Alice" /\
    ContactUpdate_validate env body = Return contact_in /\
    ContactUpdate.email contact_in = Some (Contact.email old) /\
    ContactUpdate.first_name contact_in = Some None /\
    run (update_contact_patch env 1 contact_in) seeded =
      (Raise (IntegrityError "NOT NULL constraint failed"), at_rest seeded) /\
    run (patch_contact env 1 body) seeded =
      (Raise (IntegrityError "NOT NULL constraint failed"), at_rest seeded) /\
    run (put_contact env 1 (("last_name", PStr "Smith") :: body)) seeded =
      (RequestValidationError, at_rest seeded).
Proof.
  eexists _, _. repeat split; vm_compute; reflexivity.
Qed.

(** X21.  A PATCH that sets the email to the one the row has runs as the
    same PATCH with the email left unset: the table is not asked who holds
    the email, nothing is verified, the stored [hunter_score] is the one
    before; and it succeeds when it sets neither name to null. *)
Theorem patch_same_email_is_no_change env contact_id st old contact_in :
  store_ok st ->
  row contact_id st = Some old ->
  ContactUpdate.email contact_in = Some (Contact.email old) ->
  let unset_email :=
    ContactUpdate.ContactUpdate (ContactUpdate.first_name contact_in)
      (ContactUpdate.last_name contact_in) None (ContactUpdate.phone contact_in) in
  exists r w' kept,
    run (update_contact_patch env contact_id contact_in) st = (r, w') /\
    run (update_contact_patch env contact_id unset_email) st = (r, w') /\
    no_conflict_check (trace w') /\
    no_verification (trace w') /\
    row contact_id (committed w') = Some kept /\
    Contact.hunter_score kept = Contact.hunter_score old /\
    (ContactUpdate.first_name contact_in <> Some None ->
     ContactUpdate.last_name contact_in <> Some None ->
     r = Return kept).
Proof.
  intros Hok Hrow Hemail unset_email.
  destruct (row_Some _ _ _ Hrow) as [Hin Hid].
  pose proof (row_in_ids _ _ _ Hrow) as Hids.
  pose proof (store_ok_row _ _ _ Hok Hrow) as Hnn.
  rewrite (update_contact_patch_keep env contact_id contact_in st old) by auto.
  rewrite (update_contact_patch_keep env contact_id unset_email st old) by auto.
  assert (Hsame : overwritten old unset_email (Contact.hunter_score old)
                  = overwritten old contact_in (Contact.hunter_score old)).
  { unfold overwritten, unset_email. simpl. by rewrite Hemail. }
  rewrite Hsame.
  destruct (not_null_ok (overwritten old contact_in (Contact.hunter_score old))) eqn:Hnew.
  - eexists _, _, _. split; [reflexivity |]. split; [reflexivity |]. simpl.
    split; [apply no_conflict_check_nil |].
    split; [apply no_verification_nil |].
    split; [by apply row_replaced |]. done.
  - eexists _, _, old. split; [reflexivity |]. split; [reflexivity |]. simpl.
    split; [apply no_conflict_check_nil |].
    split; [apply no_verification_nil |].
    split; [done |]. split; [done |].
    intros Hfn Hln. exfalso.
    rewrite not_null_overwritten_ok in Hnew; try done.
    rewrite Hemail. intros [= Hnull]. by eapply not_null_ok_email.
Qed.

Lemma patch_same_email_is_no_change_witness :
  exists r w' kept,
    run (update_contact_patch
           (mkEnv (Some "key") (fun _ => Raise (RequestError "ConnectError"))
              (fun _ => None) (fun v => v)) 2
           (ContactUpdate.ContactUpdate None None (Some (Some "bob.j@test.org")) None))
        seeded = (r, w') /\
    no_conflict_check (trace w') /\
    no_verification (trace w') /\
    row 2 (committed w') = Some kept /\
    Contact.hunter_score kept = PInt 45.
Proof.
  set (bob := Contact.Contact (Some 2%Z) (Some "Bob") (Some "Johnson")
                (Some "bob.j@test.org") None (PInt 45)).
  assert (Hok : store_ok seeded)
    by apply reachable_ok, reachable_step, reachable_empty.
  destruct (patch_same_email_is_no_change
              (mkEnv (Some "key") (fun _ => Raise (RequestError "ConnectError"))
                 (fun _ => None) (fun v => v))
              2%Z seeded bob
              (ContactUpdate.ContactUpdate None None (Some (Some "bob.j@test.org")) None)
              Hok eq_refl eq_refl)
    as (r & w' & kept & Hrun & _ & Hcheck & Hverify & Hkept & Hscore & _).
  exists r, w', kept. by repeat split.
Defined.

(** C10.  On the seeded table contact 2 exists and
    [PATCH /contacts/2 {"last_name": null, "email": "bob.j@test.org"}] sets
    the email to the one it has: the table is not asked who holds the email
    and nothing is verified, yet the request does not succeed.
    [ContactUpdate] lets the null [last_name] through and the commit is
    refused by the NOT NULL column with an IntegrityError that no handler
    catches; the table stays as it was.  The same null in the body of a PUT
    is refused by validation before the handler runs. *)
Theorem patch_same_email_null_last_name_fails :
  let env := mkEnv None (fun _ => Raise (RequestError "ConnectError")) Some (fun v => v) in
  let body := [("last_name", PNone); ("email", PStr "bob.j@test.org")] in
  exists old contact_in,
    row 2 seeded = Some old /\
    ContactUpdate_validate env body = Return contact_in /\
    ContactUpdate.email contact_in = Some (Contact.email old) /\
    ContactUpdate.last_name contact_in = Some None /\
    run (update_contact_patch env 2 contact_in) seeded =
      (Raise (IntegrityError "NOT NULL constraint failed"), at_rest seeded) /\
    run (patch_contact env 2 body) seeded =
      (Raise (IntegrityError "NOT NULL constraint failed"), at_rest seeded) /\
    run (put_contact env 2 (("first_name", PStr "Bob") :: body)) seeded =
      (RequestValidationError, at_rest seeded).
Proof.
  eexists _, _. repeat split; vm_compute; reflexivity.
Qed.

(** ** Where [hunter_score] comes from *)

Lemma validate_same_fields env body1 body2 :
  same_declared_fields body1 body2 ->
  ContactCreate_validate env body1 = ContactCreate_validate env body2 /\
  ContactUpdate_validate env body1 = ContactUpdate_validate env body2.
Proof.
  intros Hsame. unfold ContactCreate_validate, ContactUpdate_validate.
  rewrite (Hsame "first_name"), (Hsame "last_name"), (Hsame "email"), (Hsame "phone");
    [done | | | | ]; repeat ((by left) || right).
Qed.

Lemma with_hunter_score_same_fields body x :
  same_declared_fields (("hunter_score", x) :: body) body.
Proof.
  intros name Hname. simpl. destruct (decide ("hunter_score" = name)) as [<- | _]; [ | done ].
  exfalso. repeat (apply elem_of_cons in Hname as [Hname | Hname]; [discriminate |]).
  by apply elem_of_nil in Hname.
Qed.

(** C9.  On a table that meets its constraints, the [hunter_score] of the
    record a create returns and stores is the score its verification gave,
    as the INTEGER column keeps it (an integer or a null as it is, a boolean
    as 1 or 0); the one a PUT or a PATCH returns and stores is the score the
    row had or the score the verification of the new email gave, kept
    likewise.  The three writing routes answer alike to two bodies that agree
    on the four declared fields, so a [hunter_score] the client puts in the
    body changes nothing. *)
Theorem hunter_score_only_from_verification env st :
  store_ok st ->
  (forall contact_in new w',
     run (create_contact env contact_in) st = (Return new, w') ->
     exists v,
       verification_of env (Some (ContactCreate.email contact_in)) = Return v /\
       Contact.hunter_score new = integer_column (numeric_affinity env) (score v) /\
       (forall n, score v = PInt n -> Contact.hunter_score new = PInt n) /\
       (score v = PNone -> Contact.hunter_score new = PNone) /\
       (forall b, score v = PBool b ->
                  Contact.hunter_score new = PInt (if b then 1 else 0)) /\
       new ∈ committed w') /\
  (forall contact_id contact_in old new w',
     row contact_id st = Some old ->
     run (update_contact_put env contact_id contact_in) st = (Return new, w') ->
     row contact_id (committed w') = Some new /\
     (Contact.hunter_score new = Contact.hunter_score old \/
      exists v,
        verification_of env (Some (ContactCreate.email contact_in)) = Return v /\
        Contact.hunter_score new = integer_column (numeric_affinity env) (score v))) /\
  (forall contact_id contact_in old new w',
     row contact_id st = Some old ->
     run (update_contact_patch env contact_id contact_in) st = (Return new, w') ->
     row contact_id (committed w') = Some new /\
     (Contact.hunter_score new = Contact.hunter_score old \/
      exists new_email v,
        ContactUpdate.email contact_in = Some new_email /\
        verification_of env new_email = Return v /\
        Contact.hunter_score new = integer_column (numeric_affinity env) (score v))) /\
  (forall body1 body2 contact_id w,
     same_declared_fields body1 body2 ->
     post_contacts env body1 w = post_contacts env body2 w /\
     put_contact env contact_id body1 w = put_contact env contact_id body2 w /\
     patch_contact env contact_id body1 w = patch_contact env contact_id body2 w) /\
  (forall body x contact_id w,
     post_contacts env (("hunter_score", x) :: body) w = post_contacts env body w /\
     put_contact env contact_id (("hunter_score", x) :: body) w
       = put_contact env contact_id body w /\
     patch_contact env contact_id (("hunter_score", x) :: body) w
       = patch_contact env contact_id body w).
Proof.
  intros Hok.
  assert (Hbodies : forall body1 body2 contact_id w,
     same_declared_fields body1 body2 ->
     post_contacts env body1 w = post_contacts env body2 w /\
     put_contact env contact_id body1 w = put_contact env contact_id body2 w /\
     patch_contact env contact_id body1 w = patch_contact env contact_id body2 w).
  { intros body1 body2 contact_id w Hsame.
    destruct (validate_same_fields env body1 body2 Hsame) as [Hcreate Hupdate].
    unfold post_contacts, put_contact, patch_contact. by rewrite Hcreate, Hupdate. }
  split; [ | split; [ | split; [ | split ] ] ].
  - intros contact_in new w' Hrun.
    destruct (create_contact_success _ _ _ _ _ Hrun)
      as (_ & Hw & _ & _ & _ & v & Hv & Hscore).
    exists v. split; [done |]. split; [done |].
    split; [intros n Hn; by rewrite Hscore, Hn |].
    split; [intros Hn; by rewrite Hscore, Hn |].
    split; [intros b Hb; by rewrite Hscore, Hb |].
    rewrite Hw. apply elem_of_app. right. by left.
  - intros contact_id contact_in old new w' Hrow Hrun.
    destruct (update_contact_put_success _ _ _ _ _ _ Hok Hrun)
      as (old' & Hrow' & Hw & Hnew & Hscore).
    assert (old' = old) as -> by congruence.
    split; [ | done ].
    rewrite Hw. apply row_replaced; [ | by eapply row_in_ids ].
    rewrite Hnew. simpl. by apply row_Some in Hrow as [_ ?].
  - intros contact_id contact_in old new w' Hrow Hrun.
    destruct (update_contact_patch_success _ _ _ _ _ _ Hok Hrun)
      as (old' & Hrow' & Hw & Hnew & Hscore).
    assert (old' = old) as -> by congruence.
    split; [ | done ].
    rewrite Hw. apply row_replaced; [ | by eapply row_in_ids ].
    rewrite Hnew. simpl. by apply row_Some in Hrow as [_ ?].
  - exact Hbodies.
  - intros body x contact_id w. apply Hbodies, with_hunter_score_same_fields.
Qed.

Lemma hunter_score_only_from_verification_witness :
  let env := mkEnv None (fun _ => Raise (RequestError "ConnectError")) Some (fun v => v) in
  let body := [("first_name", PStr "Carol"); ("last_name", PStr "Diaz");
               ("email", PStr "carol@example.com")] in
  post_contacts env (("hunter_score", PInt 99) :: body) (at_rest seeded)
    = post_contacts env body (at_rest seeded) /\
  exists new w',
    post_contacts env (("hunter_score", PInt 99) :: body) (at_rest seeded)
      = (Return new, w') /\
    Contact.hunter_score new = PInt 50.
Proof.
  intros env body.
  assert (Hok : store_ok seeded)
    by apply reachable_ok, reachable_step, reachable_empty.
  destruct (proj2 (proj2 (proj2 (proj2 (hunter_score_only_from_verification env seeded Hok))))
              body (PInt 99) 0%Z (at_rest seeded)) as (Hpost & _ & _).
  split; [exact Hpost |].
  eexists _, _. split; [vm_compute; reflexivity | reflexivity].
Defined.

(** * Further properties of the handlers *)

(** ** Reading one contact *)

(** X1.  [read_contact] writes nothing and calls nothing.  What it returns
    is a row of the table with the id asked for; for an id that fits a signed
    64-bit integer it answers 404 exactly when no row has the id; for an id
    that does not, the driver refuses the parameter and the handler raises
    OverflowError; on a table that meets its constraints it returns the row
    that has the id. *)
Theorem read_contact_lookup contact_id st :
  snd (run (read_contact contact_id) st) = at_rest st /\
  (forall c, fst (run (read_contact contact_id) st) = Return c ->
             c ∈ st /\ Contact.id c = Some contact_id) /\
  (is_int64 contact_id ->
   (fst (run (read_contact contact_id) st)
      = Raise (HTTPException HTTP_404_NOT_FOUND "Contact not found")
    <-> forall c, c ∈ st -> Contact.id c <> Some contact_id)) /\
  (~ is_int64 contact_id ->
   fst (run (read_contact contact_id) st) = Raise (PyError "OverflowError")) /\
  (store_ok st ->
   forall c, c ∈ st -> Contact.id c = Some contact_id ->
             fst (run (read_contact contact_id) st) = Return c).
Proof.
  rewrite read_contact_run.
  split; [destruct (decide _); [by destruct (row contact_id st) | done] |].
  split; [ | split; [ | split ] ].
  - intros c. destruct (decide _); [ | done ].
    destruct (row contact_id st) as [c' |] eqn:Hrow; [ | done ].
    intros [= <-]. by apply row_Some.
  - intros Hkey. rewrite decide_True by done.
    destruct (row contact_id st) as [c' |] eqn:Hrow; simpl.
    + split; [done |]. intros Hnone. destruct (row_Some _ _ _ Hrow) as [Hin Hid].
      by destruct (Hnone c' Hin).
    + split; [ | done ]. intros _ c. by apply row_None.
  - intros Hkey. by rewrite decide_False.
  - intros (_ & Hids & _ & Hkeys) c Hin Hid.
    rewrite Forall_forall in Hkeys.
    rewrite decide_True by (by apply (Hkeys c Hin)).
    by rewrite (row_elem_of contact_id st c).
Qed.

Lemma read_contact_lookup_witness :
  fst (run (read_contact 2) seeded)
  = Return (Contact.Contact (Some 2%Z) (Some "Bob") (Some "Johnson")
              (Some "bob.j@test.org") None (PInt 45)).
Proof.
  apply (proj2 (proj2 (proj2 (proj2 (read_contact_lookup 2 seeded))))).
  - apply reachable_ok, reachable_step, reachable_empty.
  - vm_compute. right. left.
  - reflexivity.
Defined.

(** X2.  Read your writes: on a table that meets its constraints, the record
    a create, a PUT or a PATCH returns is the record [read_contact] returns
    for its id on the table the write left. *)
Theorem read_contact_after_write env st :
  store_ok st ->
  (forall contact_in new w,
     run (create_contact env contact_in) st = (Return new, w) ->
     exists contact_id,
       Contact.id new = Some contact_id /\
       run (read_contact contact_id) (committed w) = (Return new, at_rest (committed w))) /\
  (forall contact_id contact_in new w,
     run (update_contact_put env contact_id contact_in) st = (Return new, w) ->
     run (read_contact contact_id) (committed w) = (Return new, at_rest (committed w))) /\
  (forall contact_id contact_in new w,
     run (update_contact_patch env contact_id contact_in) st = (Return new, w) ->
     run (read_contact contact_id) (committed w) = (Return new, at_rest (committed w))).
Proof.
  intros Hok. split; [ | split ].
  - intros contact_in new w Hrun.
    destruct (create_contact_success _ _ _ _ _ Hrun) as (_ & -> & Hid & Hkey & _).
    exists (next_id st). split; [done |].
    by rewrite read_contact_run, decide_True, row_appended.
  - intros contact_id contact_in new w Hrun.
    destruct (update_contact_put_success _ _ _ _ _ _ Hok Hrun)
      as (old & Hrow & -> & Hnew & _).
    rewrite read_contact_run, decide_True by (by eapply row_key).
    rewrite (row_replaced contact_id new st); [done | |].
    + rewrite Hnew. simpl. by apply row_Some in Hrow as [_ ?].
    + by eapply row_in_ids.
  - intros contact_id contact_in new w Hrun.
    destruct (update_contact_patch_success _ _ _ _ _ _ Hok Hrun)
      as (old & Hrow & -> & Hnew & _).
    rewrite read_contact_run, decide_True by (by eapply row_key).
    rewrite (row_replaced contact_id new st); [done | |].
    + rewrite Hnew. simpl. by apply row_Some in Hrow as [_ ?].
    + by eapply row_in_ids.
Qed.

Lemma read_contact_after_write_witness :
  let env := mkEnv None (fun _ => Raise (RequestError "ConnectError")) (fun _ => None) (fun v => v) in
  let contact_in := ContactCreate.ContactCreate "Carol" "Diaz" "carol@example.com" None in
  let new := Contact.Contact (Some 3%Z) (Some "Carol") (Some "Diaz")
               (Some "carol@example.com") None (PInt 50) in
  exists contact_id,
    Contact.id new = Some contact_id /\
    run (read_contact contact_id) (seeded ++ [new]) = (Return new, at_rest (seeded ++ [new])).
Proof.
  intros env contact_in new.
  assert (Hok : store_ok seeded)
    by apply reachable_ok, reachable_step, reachable_empty.
  apply (proj1 (read_contact_after_write env seeded Hok) contact_in new
           (mkWorld (seeded ++ [new]) (seeded ++ [new])
              [CallVerify (Some "carol@example.com");
               CheckEmail (Some "carol@example.com")])).
  vm_compute. reflexivity.
Defined.

(** ** Creating *)



(** X11.  A create undone: deleting the id a create returned gives back the
    table the create found. *)
Theorem delete_after_create env contact_in st new w contact_id :
  run (create_contact env contact_in) st = (Return new, w) ->
  Contact.id new = Some contact_id ->
  run (delete_contact contact_id) (committed w) = (Return "Contact deleted", at_rest st).
Proof.
  intros Hrun Hnew.
  destruct (create_contact_success _ _ _ _ _ Hrun) as (_ & -> & Hid & Hkey & _).
  assert (contact_id = next_id st) as -> by congruence.
  assert (Hkeep : filter (fun r => ~ where_id (next_id st) r) st = st).
  { clear Hrun Hkey Hid Hnew. pose proof (next_id_above st) as Habove.
    generalize dependent (next_id st). intros n Habove.
    induction st as [| r st IH]; [done |].
    rewrite filter_cons_True.
    - f_equal. apply IH. intros r' i Hin. apply Habove. by right.
    - unfold where_id. intros Hr. pose proof (Habove r n ltac:(left) Hr). lia. }
  rewrite delete_contact_run, decide_True by done.
  rewrite decide_False.
  - rewrite filter_app, Hkeep. rewrite filter_cons_False; [ | by intros []].
    by rewrite app_nil_r.
  - pose proof (row_appended st new Hid) as Hrow. apply row_Some in Hrow as [Hin _].
    intros Hnil. by eapply (filter_nil_not_elem_of (where_id (next_id st))).
Qed.

Lemma delete_after_create_witness :
  let new := Contact.Contact (Some 3%Z) (Some "Carol") (Some "Diaz")
               (Some "carol@example.com") None (PInt 50) in
  run (delete_contact 3) (seeded ++ [new]) = (Return "Contact deleted", at_rest seeded).
Proof.
  intros new.
  apply (delete_after_create
           (mkEnv None (fun _ => Raise (RequestError "ConnectError")) (fun _ => None) (fun v => v))
           (ContactCreate.ContactCreate "Carol" "Diaz" "carol@example.com" None)
           seeded new
           (mkWorld (seeded ++ [new]) (seeded ++ [new])
              [CallVerify (Some "carol@example.com");
               CheckEmail (Some "carol@example.com")])
           3%Z); vm_compute; reflexivity.
Defined.

(** The calls one verification makes: it is entered, and with a credential
    one request is sent, whatever comes back. *)
Lemma verification_trace_shape env email :
  verification_trace env email =
    CallVerify email ::
    (if decide (configured env) then [HttpGet (hunter_url env email)] else []).
Proof.
  destruct (decide (configured env)) as [Hconf | Hno];
    [ | by apply verification_trace_mocked ].
  destruct Hconf as [Hne Hmock].
  unfold verification_trace, verify_email_hunter, get_url. unfold_monad; simpl.
  destruct (decide _) as [[? | ?] | _]; [done | done |]; simpl.
  destruct (client_get env (hunter_url env email)) as [response | e]; simpl;
    [ | by destruct e ].
  destruct (raise_for_status response) as [[] | e]; simpl; [ | by destruct e ].
  destruct (json response) as [data | e]; simpl; [ | by destruct e ].
  destruct (getitem data "data") as [inner | e]; simpl; [ | by destruct e ].
  destruct (get inner "score" (PInt 50)) as [s | e]; simpl; [done | by destruct e].
Qed.

(** ** Updating *)

(** X4.  On a table that meets its constraints, a PUT or a PATCH that
    succeeds keeps the id of the row and the ids of the table, and leaves
    the row of every other id as it was. *)
Theorem update_leaves_other_rows env contact_id st :
  store_ok st ->
  (forall contact_in new w,
     run (update_contact_put env contact_id contact_in) st = (Return new, w) ->
     Contact.id new = Some contact_id /\
     Contact.id <$> committed w = Contact.id <$> st /\
     forall j, j <> contact_id -> row j (committed w) = row j st) /\
  (forall contact_in new w,
     run (update_contact_patch env contact_id contact_in) st = (Return new, w) ->
     Contact.id new = Some contact_id /\
     Contact.id <$> committed w = Contact.id <$> st /\
     forall j, j <> contact_id -> row j (committed w) = row j st).
Proof.
  intros Hok. split.
  - intros contact_in new w Hrun.
    destruct (update_contact_put_success _ _ _ _ _ _ Hok Hrun)
      as (old & Hrow & -> & Hnew & _).
    assert (Hid : Contact.id new = Some contact_id).
    { rewrite Hnew. simpl. by apply row_Some in Hrow as [_ ?]. }
    split; [done |]. split; [apply replace_ids |].
    intros j Hj. by apply (row_replaced_other contact_id).
  - intros contact_in new w Hrun.
    destruct (update_contact_patch_success _ _ _ _ _ _ Hok Hrun)
      as (old & Hrow & -> & Hnew & _).
    assert (Hid : Contact.id new = Some contact_id).
    { rewrite Hnew. simpl. by apply row_Some in Hrow as [_ ?]. }
    split; [done |]. split; [apply replace_ids |].
    intros j Hj. by apply (row_replaced_other contact_id).
Qed.

Lemma update_leaves_other_rows_witness :
  let env := mkEnv None (fun _ => Raise (RequestError "ConnectError")) (fun _ => None) (fun v => v) in
  let contact_in := ContactUpdate.ContactUpdate None None None (Some (Some "555-0000")) in
  exists new w,
    run (update_contact_patch env 1 contact_in) seeded = (Return new, w) /\
    Contact.id new = Some 1%Z /\
    row 2 (committed w) = row 2 seeded.
Proof.
  intros env contact_in.
  assert (Hok : store_ok seeded)
    by apply reachable_ok, reachable_step, reachable_empty.
  eexists _, _. split; [vm_compute; reflexivity |].
  destruct (proj2 (update_leaves_other_rows env 1 seeded Hok) contact_in _ _
              ltac:(vm_compute; reflexivity)) as (Hid & _ & Hothers).
  split; [exact Hid |]. apply Hothers. lia.
Defined.

(** X10.  PUT is idempotent: on a table that meets its constraints, the same
    PUT sent again after it succeeded returns the same record, leaves the
    table as the first one left it, and verifies nothing. *)
Theorem update_contact_put_idempotent env contact_id contact_in st new w :
  store_ok st ->
  run (update_contact_put env contact_id contact_in) st = (Return new, w) ->
  run (update_contact_put env contact_id contact_in) (committed w)
    = (Return new, at_rest (committed w)).
Proof.
  intros Hok Hrun.
  assert (Hok' : store_ok (committed w)).
  { replace w with (snd (run (update_contact_put env contact_id contact_in) st))
      by (by rewrite Hrun).
    rewrite (committed_step _ env (Put contact_id contact_in)) by done.
    by apply step_ok. }
  destruct (update_contact_put_success _ _ _ _ _ _ Hok Hrun)
    as (old & Hrow & Hw & Hnew & _).
  assert (Hid : Contact.id new = Some contact_id).
  { rewrite Hnew. simpl. by apply row_Some in Hrow as [_ ?]. }
  assert (Hrow' : row contact_id (committed w) = Some new).
  { rewrite Hw. apply row_replaced; [done | by eapply row_in_ids]. }
  rewrite (update_contact_put_keep env contact_id contact_in (committed w) new);
    [ | done | done | by rewrite Hnew ].
  assert (Hsame : overwritten new (all_fields contact_in) (Contact.hunter_score new) = new).
  { rewrite Hnew at 1 3. by rewrite Hnew at 3. }
  rewrite Hsame.
  rewrite replaced_self; [done | apply Hok' | by apply row_Some in Hrow' as [? _]].
Qed.

Lemma update_contact_put_idempotent_witness :
  let env := mkEnv None (fun _ => Raise (RequestError "ConnectError")) (fun _ => None) (fun v => v) in
  let contact_in := ContactCreate.ContactCreate "Bob" "Jones" "bob@example.com" None in
  exists new w,
    run (update_contact_put env 2 contact_in) seeded = (Return new, w) /\
    run (update_contact_put env 2 contact_in) (committed w)
      = (Return new, at_rest (committed w)).
Proof.
  intros env contact_in.
  assert (Hok : store_ok seeded)
    by apply reachable_ok, reachable_step, reachable_empty.
  eexists _, _. split; [vm_compute; reflexivity |].
  apply (update_contact_put_idempotent env 2 contact_in seeded _ _ Hok).
  vm_compute. reflexivity.
Defined.

(** X13.  A PUT or a PATCH of an id no row has, the id fitting a signed
    64-bit integer, fails with 404 before anything else happens: the table
    is not asked who holds the email, nothing is verified, nothing is
    written.  For an id that does not fit, the driver refuses the parameter
    of the first lookup: the handler raises OverflowError, and again nothing
    is verified and nothing is written. *)
Theorem update_missing_id_not_found env contact_id st :
  (forall r, r ∈ st -> Contact.id r <> Some contact_id) ->
  (is_int64 contact_id ->
   (forall contact_in,
      run (update_contact_put env contact_id contact_in) st
        = (Raise (HTTPException HTTP_404_NOT_FOUND "Contact not found"), at_rest st)) /\
   (forall contact_in,
      run (update_contact_patch env contact_id contact_in) st
        = (Raise (HTTPException HTTP_404_NOT_FOUND "Contact not found"), at_rest st))) /\
  (~ is_int64 contact_id ->
   (forall contact_in,
      run (update_contact_put env contact_id contact_in) st
        = (Raise (PyError "OverflowError"), at_rest st)) /\
   (forall contact_in,
      run (update_contact_patch env contact_id contact_in) st
        = (Raise (PyError "OverflowError"), at_rest st))).
Proof.
  intros Hnone.
  assert (Hrow : row contact_id st = None).
  { destruct (row contact_id st) as [r |] eqn:Hrow; [ | done ].
    apply row_Some in Hrow as [Hin Hid]. by destruct (Hnone r Hin). }
  split; intros Hkey; split; intros contact_in.
  - by apply update_contact_put_not_found.
  - by apply update_contact_patch_not_found.
  - by apply update_contact_put_overflow.
  - by apply update_contact_patch_overflow.
Qed.

Lemma update_missing_id_not_found_witness :
  run (update_contact_put
         (mkEnv (Some "key") (fun _ => Raise (RequestError "ConnectError")) (fun _ => None) (fun v => v))
         7 (ContactCreate.ContactCreate "Carol" "Diaz" "alice@example.com" None))
      seeded
  = (Raise (HTTPException HTTP_404_NOT_FOUND "Contact not found"), at_rest seeded).
Proof.
  apply (proj1 (proj1 (update_missing_id_not_found
                  (mkEnv (Some "key") (fun _ => Raise (RequestError "ConnectError"))
                     (fun _ => None) (fun v => v))
                  7 seeded
                  ltac:(vm_compute; intros r Hin;
                        repeat (apply elem_of_cons in Hin as [-> | Hin]; [discriminate |]);
                        by apply elem_of_nil in Hin))
                  ltac:(unfold is_int64; lia))).
Defined.



(** ** Calls and errors *)

Lemma verify_email_endpoint_run env email st :
  exists v,
    verification_of env (Some email) = Return v /\
    run (verify_email_endpoint env email) st =
      (Return (email, score v, status v),
       mkWorld st st (verification_trace env (Some email))).
Proof.
  unfold run, verify_email_endpoint.
  destruct (bind_verify env (Some email)
              (fun result => ret (email, score result, status result)) (at_rest st))
    as (v & Hv & ->).
  by exists v.
Qed.

(** X5.  One verification sends at most one request: with a credential,
    exactly one, to the verifier URL carrying the email and the key, whatever
    the service answers (nothing is retried); without one, none.  The calls
    are appended to those made before. *)
Theorem verify_email_hunter_one_request env email w :
  trace (snd (verify_email_hunter env email w)) =
    trace w ++ CallVerify email ::
      (if decide (configured env)
       then [HttpGet ("https://api.hunter.io/v2/email-verifier?email=" +:+ str email +:+
                      "&api_key=" +:+ HUNTER_API_KEY env)]
       else []).
Proof.
  destruct (verify_email_hunter_run env email w) as (v & _ & ->). simpl.
  by rewrite verification_trace_shape.
Qed.

(** X6.  A create verifies first and asks the table second: the
    verification, with its request when a credential is configured, is made
    also when the email turns out to be held and the create ends in 409. *)
Theorem create_contact_verifies_first env contact_in st :
  trace (snd (run (create_contact env contact_in) st)) =
    CallVerify (Some (ContactCreate.email contact_in)) ::
    (if decide (configured env)
     then [HttpGet (hunter_url env (Some (ContactCreate.email contact_in)))]
     else []) ++
    [CheckEmail (Some (ContactCreate.email contact_in))].
Proof.
  destruct (decide (holders (ContactCreate.email contact_in) st = [])) as [Hfree | Hheld].
  - destruct (verify_email_hunter_run env (Some (ContactCreate.email contact_in))
                (at_rest st)) as (v & Hv & _).
    rewrite (create_contact_fresh env contact_in st v Hfree Hv).
    rewrite verification_trace_shape.
    destruct (bind_integer _ _); [ | done ]. simpl. by destruct (decide _).
  - rewrite create_contact_conflict by done. simpl.
    by rewrite verification_trace_shape.
Qed.



(** X17.  The stand-alone route [GET /contacts/verify-email/{email}].  The
    path segment is read as [EmailStr]: an address the validator refuses
    ends the request with a validation error before anything is called; an
    accepted one is passed on as the validator normalised it, and the route
    returns that normalised address, not the segment as sent, with the score
    and status of its verification, having made the calls of one
    verification.  Without a credential the answer is 50 with "mocked_key";
    with one, "verified" with the score read, or one of the three fixed
    pairs 40 "api_error", 45 "network_error", 48 "unexpected_error".  The
    table is left as it was either way. *)
Theorem verify_email_endpoint_answers env email st :
  match validate_email env email with
  | None =>
      run (get_verify_email env email) st
        = (Raise (PyError "RequestValidationError"), at_rest st)
  | Some normalized =>
      exists v,
        verification_of env (Some normalized) = Return v /\
        run (get_verify_email env email) st =
          (Return (normalized, score v, status v),
           mkWorld st st (verification_trace env (Some normalized))) /\
        (if decide (configured env)
         then status v = "verified" \/
              v = mkVerification (PInt 40) "api_error" \/
              v = mkVerification (PInt 45) "network_error" \/
              v = mkVerification (PInt 48) "unexpected_error"
         else v = mkVerification (PInt 50) "mocked_key")
  end.
Proof.
  unfold get_verify_email, run, validate_EmailStr.
  destruct (validate_email env email) as [normalized |] eqn:Hvalid; [ | done ].
  destruct (verify_email_endpoint_run env normalized st) as (v & Hv & Hrun).
  exists v. split; [done |]. split; [exact Hrun |].
  destruct (decide (configured env)) as [Hconf | Hno].
  - rewrite (verification_of_configured env (Some normalized) Hconf) in Hv.
    destruct (client_get env _) as [response | e].
    + destruct (raise_for_status response); [ | injection Hv as <-; auto ].
      destruct (Exc_bind _ _); injection Hv as <-; auto.
    + destruct e; injection Hv as <-; auto.
  - rewrite verification_of_mocked in Hv by done. by injection Hv as <-.
Qed.

(** ** Request bodies *)

Lemma validate_str_Return n v s :
  validate_str n v = Return s -> v = PStr s /\ n <= len s.
Proof.
  unfold validate_str. destruct v; try discriminate.
  destruct (decide _); [ | discriminate ]. by intros [= ->].
Qed.

Lemma validate_required_Return {T} (validate : pyval -> Exc T) o t :
  validate_required validate o = Return t -> exists v, o = Some v /\ validate v = Return t.
Proof. destruct o as [v |]; [ | discriminate ]. simpl. eauto. Qed.

Lemma validate_str_Raise n v e :
  validate_str n v = Raise e -> e = PyError "RequestValidationError".
Proof.
  unfold validate_str, RequestValidationError.
  destruct v; try (by intros [= <-]). destruct (decide _); [done | by intros [= <-]].
Qed.

Lemma validate_EmailStr_Raise env v e :
  validate_EmailStr env v = Raise e -> e = PyError "RequestValidationError".
Proof.
  unfold validate_EmailStr, RequestValidationError.
  destruct v; try (by intros [= <-]).
  destruct (validate_email env s); [done | by intros [= <-]].
Qed.

Lemma validate_required_Raise {T} (validate : pyval -> Exc T) o e :
  (forall v e, validate v = Raise e -> e = PyError "RequestValidationError") ->
  validate_required validate o = Raise e -> e = PyError "RequestValidationError".
Proof.
  intros Hv. destruct o as [v |]; simpl; [apply Hv | by intros [= <-]].
Qed.

Lemma validate_optional_Raise {T} (validate : pyval -> Exc T) o e :
  (forall v e, validate v = Raise e -> e = PyError "RequestValidationError") ->
  validate_optional validate o = Raise e -> e = PyError "RequestValidationError".
Proof.
  intros Hv. destruct o as [v |]; simpl; [ | done ].
  destruct v; try done;
    match goal with
    | |- context [validate ?x] =>
        destruct (validate x) eqn:Hx; [done | intros [= <-]; by eapply Hv]
    end.
Qed.

Lemma validate_settable_Raise {T} (validate : pyval -> Exc T) o e :
  (forall v e, validate v = Raise e -> e = PyError "RequestValidationError") ->
  validate_settable validate o = Raise e -> e = PyError "RequestValidationError".
Proof.
  intros Hv. destruct o as [v |]; [ | done ]. unfold validate_settable.
  destruct (validate_optional validate (Some v)) eqn:Hx; [done |].
  intros [= <-]. by eapply validate_optional_Raise.
Qed.

Lemma validation_raises_one env body e :
  ContactCreate_validate env body = Raise e \/ ContactUpdate_validate env body = Raise e ->
  e = PyError "RequestValidationError".
Proof.
  unfold ContactCreate_validate, ContactUpdate_validate.
  intros [H | H].
  - destruct (validate_required (validate_str 2) (dict_lookup "first_name" body)) eqn:H1;
      simpl in H; [ | injection H as <-;
        by eapply validate_required_Raise; [apply validate_str_Raise |] ].
    destruct (validate_required (validate_str 2) (dict_lookup "last_name" body)) eqn:H2;
      simpl in H; [ | injection H as <-;
        by eapply validate_required_Raise; [apply validate_str_Raise |] ].
    destruct (validate_required (validate_EmailStr env) (dict_lookup "email" body)) eqn:H3;
      simpl in H; [ | injection H as <-;
        by eapply validate_required_Raise; [apply validate_EmailStr_Raise |] ].
    destruct (validate_optional (validate_str 0) (dict_lookup "phone" body)) eqn:H4;
      simpl in H; [ done | injection H as <-;
        by eapply validate_optional_Raise; [apply validate_str_Raise |] ].
  - destruct (validate_settable (validate_str 2) (dict_lookup "first_name" body)) eqn:H1;
      simpl in H; [ | injection H as <-;
        by eapply validate_settable_Raise; [apply validate_str_Raise |] ].
    destruct (validate_settable (validate_str 2) (dict_lookup "last_name" body)) eqn:H2;
      simpl in H; [ | injection H as <-;
        by eapply validate_settable_Raise; [apply validate_str_Raise |] ].
    destruct (validate_settable (validate_EmailStr env) (dict_lookup "email" body)) eqn:H3;
      simpl in H; [ | injection H as <-;
        by eapply validate_settable_Raise; [apply validate_EmailStr_Raise |] ].
    destruct (validate_settable (validate_str 0) (dict_lookup "phone" body)) eqn:H4;
      simpl in H; [ done | injection H as <-;
        by eapply validate_settable_Raise; [apply validate_str_Raise |] ].
Qed.

(** X8.  What validation lets through and what a refusal does.  A body read
    as [ContactCreate] carries both names as strings of at least 2
    characters (characters, not bytes: a name of one character is refused
    however many bytes its UTF-8 form takes) and the email as a string the
    email validator accepts (the record holds its normalised form); a body
    without one of the three required keys is refused.  A refused body makes
    POST and PUT raise the validation error at once: no verification, no
    lookup, no write. *)
Theorem ContactCreate_validate_sound env body :
  (forall contact_in,
     ContactCreate_validate env body = Return contact_in ->
     dict_lookup "first_name" body = Some (PStr (ContactCreate.first_name contact_in)) /\
     2 <= len (ContactCreate.first_name contact_in) /\
     dict_lookup "last_name" body = Some (PStr (ContactCreate.last_name contact_in)) /\
     2 <= len (ContactCreate.last_name contact_in) /\
     exists raw,
       dict_lookup "email" body = Some (PStr raw) /\
       validate_email env raw = Some (ContactCreate.email contact_in)) /\
  (forall name s,
     name ∈ ["first_name"; "last_name"] ->
     dict_lookup name body = Some (PStr s) ->
     len s < 2 ->
     ContactCreate_validate env body = RequestValidationError) /\
  (forall name,
     name ∈ ["first_name"; "last_name"; "email"] ->
     dict_lookup name body = None ->
     ContactCreate_validate env body = RequestValidationError) /\
  (forall e w contact_id,
     ContactCreate_validate env body = Raise e ->
     e = PyError "RequestValidationError" /\
     post_contacts env body w = (Raise e, w) /\
     put_contact env contact_id body w = (Raise e, w)).
Proof.
  split; [ | split; [ | split ] ].
  - intros contact_in. unfold ContactCreate_validate.
    destruct (validate_required (validate_str 2) (dict_lookup "first_name" body))
      as [fn | ?] eqn:Hfn; [ | discriminate ].
    destruct (validate_required (validate_str 2) (dict_lookup "last_name" body))
      as [ln | ?] eqn:Hln; [ | discriminate ].
    destruct (validate_required (validate_EmailStr env) (dict_lookup "email" body))
      as [em | ?] eqn:Hem; [ | discriminate ].
    destruct (validate_optional (validate_str 0) (dict_lookup "phone" body))
      as [ph | ?] eqn:Hph; [ | discriminate ].
    simpl. intros [= <-]. simpl.
    apply validate_required_Return in Hfn as (v1 & -> & [-> ?]%validate_str_Return).
    apply validate_required_Return in Hln as (v2 & -> & [-> ?]%validate_str_Return).
    apply validate_required_Return in Hem as (v3 & -> & Hv3).
    repeat split; try done.
    unfold validate_EmailStr in Hv3. destruct v3; try discriminate.
    destruct (validate_email env s) as [normalized |] eqn:Hs; [ | discriminate ].
    injection Hv3 as <-. by exists s.
  - intros name s Hname Hfield Hshort. unfold ContactCreate_validate.
    assert (Hrefused : validate_required (validate_str 2) (Some (PStr s))
                       = RequestValidationError).
    { simpl. rewrite decide_False; [done | lia]. }
    apply elem_of_cons in Hname as [-> | Hname]; [by rewrite Hfield, Hrefused |].
    destruct (validate_required (validate_str 2) (dict_lookup "first_name" body))
      as [fn | e1] eqn:Hfn; simpl; [ | by rewrite (validation_raises_one env body e1)
        by (left; unfold ContactCreate_validate; by rewrite Hfn) ].
    apply elem_of_cons in Hname as [-> | Hname]; [by rewrite Hfield, Hrefused |].
    by apply elem_of_nil in Hname.
  - intros name Hname Hnone. unfold ContactCreate_validate.
    apply elem_of_cons in Hname as [-> | Hname]; [by rewrite Hnone |].
    destruct (validate_required (validate_str 2) (dict_lookup "first_name" body))
      as [fn | e1] eqn:Hfn; simpl; [ | by rewrite (validation_raises_one env body e1)
        by (left; unfold ContactCreate_validate; by rewrite Hfn) ].
    apply elem_of_cons in Hname as [-> | Hname]; [by rewrite Hnone |].
    destruct (validate_required (validate_str 2) (dict_lookup "last_name" body))
      as [ln | e2] eqn:Hln; simpl; [ | by rewrite (validation_raises_one env body e2)
        by (left; unfold ContactCreate_validate; by rewrite Hfn, Hln) ].
    apply elem_of_cons in Hname as [-> | Hname]; [by rewrite Hnone |].
    by apply elem_of_nil in Hname.
  - intros e w contact_id Hraise.
    split; [apply (validation_raises_one env body); by left |].
    unfold post_contacts, put_contact, bind, lift. by rewrite Hraise.
Qed.

(** The name of one character U+674E, three bytes in UTF-8, is refused; a
    body with no email is refused; the five characters of an accepted name
    are counted. *)
Lemma ContactCreate_validate_sound_witness :
  let env := mkEnv None (fun _ => Raise (RequestError "ConnectError")) Some (fun v => v) in
  let li := String (Ascii.ascii_of_nat 230)
              (String (Ascii.ascii_of_nat 157) (String (Ascii.ascii_of_nat 142) EmptyString)) in
  ContactCreate_validate env [("first_name", PStr li); ("last_name", PStr "Smith");
                              ("email", PStr "li@example.com")]
    = RequestValidationError /\
  ContactCreate_validate env [("first_name", PStr "Al"); ("last_name", PStr "Smith")]
    = RequestValidationError /\
  2 <= len "Carol".
Proof.
  intros env li. split; [ | split ].
  - apply (proj1 (proj2 (ContactCreate_validate_sound env
                           [("first_name", PStr li); ("last_name", PStr "Smith");
                            ("email", PStr "li@example.com")]))
             "first_name" li); [ left | reflexivity | vm_compute; lia ].
  - apply (proj1 (proj2 (proj2 (ContactCreate_validate_sound env
                           [("first_name", PStr "Al"); ("last_name", PStr "Smith")])))
             "email"); [ right; right; left | reflexivity ].
  - apply (proj1 (ContactCreate_validate_sound env
                    [("first_name", PStr "Carol"); ("last_name", PStr "Diaz");
                     ("email", PStr "carol@example.com")])
             (ContactCreate.ContactCreate "Carol" "Diaz" "carol@example.com" None)
             eq_refl).
Defined.

Lemma overwritten_unset old :
  overwritten old (ContactUpdate.ContactUpdate None None None None)
    (Contact.hunter_score old) = old.
Proof. by destruct old. Qed.

(** X9.  A PATCH with the empty body is accepted and changes nothing: on a
    table that meets its constraints it returns the row as it is, verifies
    nothing and leaves the table as it was. *)
Theorem patch_empty_body env contact_id st old :
  store_ok st ->
  row contact_id st = Some old ->
  run (patch_contact env contact_id []) st = (Return old, at_rest st).
Proof.
  intros Hok Hrow.
  unfold run, patch_contact, bind, lift. simpl.
  change (update_contact_patch env contact_id
            (ContactUpdate.ContactUpdate None None None None) (at_rest st))
    with (run (update_contact_patch env contact_id
                 (ContactUpdate.ContactUpdate None None None None)) st).
  rewrite (update_contact_patch_keep env contact_id _ st old) by auto.
  rewrite overwritten_unset, (store_ok_row _ _ _ Hok Hrow).
  rewrite replaced_self; [done | apply Hok | by apply row_Some in Hrow as [? _]].
Qed.

Lemma patch_empty_body_witness :
  run (patch_contact
         (mkEnv (Some "key") (fun _ => Raise (RequestError "ConnectError")) (fun _ => None) (fun v => v))
         2 []) seeded
  = (Return (Contact.Contact (Some 2%Z) (Some "Bob") (Some "Johnson")
               (Some "bob.j@test.org") None (PInt 45)),
     at_rest seeded).
Proof.
  apply patch_empty_body; [ | reflexivity ].
  apply reachable_ok, reachable_step, reachable_empty.
Defined.

(** X16.  Null against missing.  In a PATCH a null phone clears the phone of
    the row and leaves its other fields and its score, where a missing phone
    keeps it; in the body of a POST or a PUT a null phone and a missing phone
    are read alike. *)
Theorem phone_null_or_missing env contact_id st old :
  store_ok st ->
  row contact_id st = Some old ->
  (exists new,
     run (patch_contact env contact_id [("phone", PNone)]) st =
       (Return new, at_rest (replaced new st)) /\
     new = Contact.Contact (Contact.id old) (Contact.first_name old)
             (Contact.last_name old) (Contact.email old) None
             (Contact.hunter_score old)) /\
  (forall body,
     dict_lookup "phone" body = None ->
     ContactCreate_validate env (("phone", PNone) :: body)
       = ContactCreate_validate env body).
Proof.
  intros Hok Hrow. split.
  - eexists. split; [ | reflexivity ].
    unfold run, patch_contact, bind, lift. simpl.
    change (update_contact_patch env contact_id
              (ContactUpdate.ContactUpdate None None None (Some None)) (at_rest st))
      with (run (update_contact_patch env contact_id
                   (ContactUpdate.ContactUpdate None None None (Some None))) st).
    rewrite (update_contact_patch_keep env contact_id _ st old) by auto.
    rewrite not_null_overwritten_ok; [done | | done | done | done].
    by eapply store_ok_row.
  - intros body Hnone. unfold ContactCreate_validate. simpl. by rewrite Hnone.
Qed.

Lemma phone_null_or_missing_witness :
  exists new,
    run (patch_contact
           (mkEnv None (fun _ => Raise (RequestError "ConnectError")) (fun _ => None) (fun v => v))
           1 [("phone", PNone)]) seeded
      = (Return new, at_rest (replaced new seeded)) /\
    Contact.phone new = None /\
    Contact.hunter_score new = PInt 85.
Proof.
  set (alice := Contact.Contact (Some 1%Z) (Some "Alice") (Some "Smith")
                  (Some "alice@example.com") (Some "555-1234") (PInt 85)).
  assert (Hok : store_ok seeded)
    by apply reachable_ok, reachable_step, reachable_empty.
  destruct (proj1 (phone_null_or_missing
                     (mkEnv None (fun _ => Raise (RequestError "ConnectError"))
                        (fun _ => None) (fun v => v))
                     1 seeded alice Hok eq_refl)) as (new & Hrun & ->).
  eexists. split; [exact Hrun |]. by split.
Defined.

(** ** Pages *)

(** X12.  Pages join: for [skip], [a], [b] not negative with [skip + a] and
    [a + b] fitting a signed 64-bit integer, the page of [a] rows at [skip]
    followed by the page of [b] rows at [skip + a] is the page of [a + b]
    rows at [skip].  A page with a limit that is not negative holds at most
    that many rows, and a page taken at or beyond the end of the table holds
    none.  Where [skip + a] or [a + b] does not fit, the driver refuses it
    and the listing that carries it raises OverflowError. *)
Theorem read_contacts_pages_join st skip a b :
  (0 <= skip)%Z -> (0 <= a)%Z -> (0 <= b)%Z ->
  (is_int64 (skip + a) -> is_int64 (a + b) ->
   exists first_page second_page,
     run (read_contacts skip a) st = (Return first_page, at_rest st) /\
     run (read_contacts (skip + a) b) st = (Return second_page, at_rest st) /\
     run (read_contacts skip (a + b)) st = (Return (first_page ++ second_page), at_rest st) /\
     (Z.of_nat (length first_page) <= a)%Z /\
     ((Z.of_nat (length st) <= skip)%Z -> first_page = [])) /\
  (~ is_int64 (skip + a) ->
   run (read_contacts (skip + a) b) st = (Raise (PyError "OverflowError"), at_rest st)) /\
  (~ is_int64 (a + b) ->
   run (read_contacts skip (a + b)) st = (Raise (PyError "OverflowError"), at_rest st)).
Proof.
  intros Hskip Ha Hb. rewrite !read_contacts_run. unfold is_int64.
  split; [ | split ].
  - intros Hsa Hab.
    rewrite !decide_True by (unfold is_int64; lia).
    eexists _, _. split; [reflexivity |]. split; [reflexivity |].
    unfold sql_limit, sql_offset. rewrite !decide_False by lia.
    split; [ | split ].
    + do 2 f_equal.
      replace (Z.to_nat (skip + a)) with (Z.to_nat skip + Z.to_nat a) by lia.
      replace (Z.to_nat (a + b)) with (Z.to_nat a + Z.to_nat b) by lia.
      rewrite <- drop_drop. symmetry. apply take_take_drop.
    + rewrite length_take. lia.
    + intros Hend. rewrite drop_ge; [apply take_nil |].
      unfold order_by_id. rewrite merge_sort_Permutation. lia.
  - intros Hsa. rewrite decide_False; [done |]. unfold is_int64. tauto.
  - intros Hab. rewrite decide_False; [done |]. unfold is_int64. tauto.
Qed.

Lemma read_contacts_pages_join_witness :
  exists first_page second_page,
    run (read_contacts 0 1) seeded = (Return first_page, at_rest seeded) /\
    run (read_contacts 1 1) seeded = (Return second_page, at_rest seeded) /\
    run (read_contacts 0 2) seeded = (Return (first_page ++ second_page), at_rest seeded).
Proof.
  destruct (proj1 (read_contacts_pages_join seeded 0 1 1 ltac:(lia) ltac:(lia) ltac:(lia))
              ltac:(unfold is_int64; simpl; lia) ltac:(unfold is_int64; simpl; lia))
    as (p & q & Hp & Hq & Hpq & _).
  by exists p, q.
Defined.

(** X18.  The whole table: with [skip] at most 0 and a limit that is
    negative or at least the number of rows (100, the default, for a table
    of up to 100 rows), both fitting a signed 64-bit integer, the listing
    holds every stored contact once, in ascending id. *)
Theorem read_contacts_everything st skip limit :
  is_int64 skip -> is_int64 limit ->
  (skip <= 0)%Z ->
  (limit < 0)%Z \/ (Z.of_nat (length st) <= limit)%Z ->
  exists contacts,
    run (read_contacts skip limit) st = (Return contacts, at_rest st) /\
    contacts ≡ₚ st /\
    ascending contacts.
Proof.
  intros Hskip64 Hlimit64 Hskip Hlimit. rewrite read_contacts_run.
  rewrite decide_True by done.
  eexists. split; [reflexivity |].
  assert (Hall : sql_limit limit (sql_offset skip (order_by_id st)) = order_by_id st).
  { unfold sql_limit, sql_offset.
    replace (Z.to_nat skip) with 0 by lia. rewrite drop_0.
    destruct (decide _); [done |]. apply take_ge.
    unfold order_by_id. rewrite merge_sort_Permutation. lia. }
  rewrite Hall. split; [apply merge_sort_Permutation | apply ascending_order_by_id].
Qed.

Lemma read_contacts_everything_witness :
  exists contacts,
    run (read_contacts 0 100) seeded = (Return contacts, at_rest seeded) /\
    contacts ≡ₚ seeded.
Proof.
  destruct (read_contacts_everything seeded 0 100
              ltac:(unfold is_int64; simpl; lia) ltac:(unfold is_int64; simpl; lia)
              ltac:(lia) ltac:(right; vm_compute; discriminate))
    as (contacts & Hrun & Hperm & _).
  by exists contacts.
Defined.

(** ** Start-up and the rows of a reachable table *)

(** X19.  Start-up seeds only an empty table: it gives the empty table the
    two seed rows, with ids 1 and 2, and leaves any other table as it is; it
    never fails, makes no call, does the same under every environment, and
    run again changes nothing. *)
Theorem on_startup_seeds_once env st :
  run on_startup st = (Return tt, at_rest (step env Startup st)) /\
  (st <> [] -> step env Startup st = st) /\
  step env Startup [] =
    [ Contact.Contact (Some 1%Z) (Some "Alice") (Some "Smith")
        (Some "alice@example.com") (Some "555-1234") (PInt 85);
      Contact.Contact (Some 2%Z) (Some "Bob") (Some "Johnson")
        (Some "bob.j@test.org") None (PInt 45) ] /\
  step env Startup (step env Startup st) = step env Startup st.
Proof.
  assert (Hstep : forall st', step env Startup st' = if st' is [] then seeded else st').
  { intros st'. unfold step. simpl. by rewrite on_startup_run. }
  split; [by rewrite on_startup_run, Hstep |].
  split; [intros Hne; rewrite Hstep; by destruct st |].
  split; [by rewrite Hstep |].
  rewrite !Hstep. by destruct st.
Qed.

Lemma on_startup_seeds_once_witness :
  step (mkEnv (Some "key") (fun _ => Raise (RequestError "ConnectError")) (fun _ => None) (fun v => v))
       Startup seeded = seeded.
Proof.
  apply (proj1 (proj2 (on_startup_seeds_once _ seeded))).
  vm_compute. discriminate.
Defined.

(** X15.  On every reachable table no two rows share an id, every row has
    an id, both names and an email, and a row is found by its id: [row]
    gives it exactly when it is in the table under that id. *)
Theorem reachable_rows_well_formed st :
  reachable st ->
  NoDup (Contact.id <$> st) /\
  (forall r, r ∈ st ->
     is_Some (Contact.id r) /\ is_Some (Contact.first_name r) /\
     is_Some (Contact.last_name r) /\ is_Some (Contact.email r)) /\
  (forall contact_id r,
     row contact_id st = Some r <-> r ∈ st /\ Contact.id r = Some contact_id).
Proof.
  intros (Hall & Hids & _)%reachable_ok.
  split; [done |]. split.
  - intros r Hin. rewrite Forall_forall in Hall. destruct (Hall r Hin) as [Hid Hnn].
    apply Is_true_true in Hnn. unfold not_null_ok in Hnn.
    rewrite !andb_true_iff in Hnn. destruct Hnn as [[Hfn Hln] Hem].
    apply bool_decide_eq_true in Hfn, Hln, Hem.
    repeat split; [done | | | ]; by apply not_eq_None_Some.
  - intros contact_id r. split; [apply row_Some |].
    intros [Hin Hid]. by apply row_elem_of.
Qed.

Lemma reachable_rows_well_formed_witness :
  NoDup (Contact.id <$>
           step (mkEnv None (fun _ => Raise (RequestError "ConnectError")) (fun _ => None) (fun v => v))
                (Create (ContactCreate.ContactCreate "Carol" "Diaz" "carol@example.com" None))
                seeded).
Proof.
  apply reachable_rows_well_formed.
  apply reachable_step, reachable_step, reachable_empty.
Defined.
